(** * SM2 public-key encryption (crypto/sm2/sm2_enc.c): a shallow embedding

    The two routines of the file, [SM2_do_encrypt] and [SM2_do_decrypt], are
    embedded as functions over an explicit machine state.  The elliptic-curve,
    big-number, digest and KDF routines the file calls live in other
    libraries; they appear here as the fields of the records [EC_GROUP],
    [EVP_MD] and [environment], under the names the C code calls them by.
    What the two routines and [SM2_CIPEHRTEXT_VALUE_free] allocate and
    release is embedded apart, over a heap of the objects a call owns.

    Conventions.
    - A byte is a [Z]; a buffer is a [list Z].
    - A C pointer that may be NULL is an [option].
    - [goto err], a failed [OPENSSL_assert] (which aborts the process) and a
      loop that is still running when the fuel is spent are the three ways
      a step can fail to fall through to the next statement ([flow]).
    - Every call into a collaborator is recorded in the machine's [trace],
      in program order.
    - [kdf(buf - 1, len - 1, ...)] reads one byte below the array [buf];
      the environment says which byte is found there.
    - Lengths stay below 2^31, so the [int] loop counters do not wrap.
    - [len], [maclen] and, in [SM2_do_decrypt], [pub_key] are used without
      a declaration; they are read as locals, [pub_key] as the public
      point of [ec_key].

    The file has three parts: the model of the two routines; a concrete
    set of collaborators (SM3, the X9.63 KDF, the SM2 curve) on which the
    model runs; the properties. *)

From Stdlib Require Import ZArith List Bool Lia.
Import ListNotations.
Local Open Scope Z_scope.

Set Implicit Arguments.

(** ** Buffers *)

(** [dst[i] ^= src[i]] for every index of [src]: the loops at lines 131-133
    and 250-252.  Bytes of [dst] past the end of [src] are left alone. *)
Fixpoint xor_into (dst src : list Z) : list Z :=
  match dst, src with
  | d :: dst', s :: src' => Z.lxor d s :: xor_into dst' src'
  | _, [] => dst
  | [], _ :: _ => []
  end.

(** Storing [bytes] at the start of the buffer [buf]. *)
Definition store (bytes buf : list Z) : list Z :=
  bytes ++ skipn (length bytes) buf.

(** The [n] bytes found at offset [off] of [buf]. *)
Definition load (buf : list Z) (off n : Z) : list Z :=
  firstn (Z.to_nat n) (skipn (Z.to_nat off) buf).

Fixpoint bytes_eqb (a b : list Z) : bool :=
  match a, b with
  | [], [] => true
  | x :: a', y :: b' => (x =? y) && bytes_eqb a' b'
  | _, _ => false
  end.

(** [memcmp(a, b, n)]: zero exactly when the first [n] bytes agree. *)
Definition memcmp (a b : list Z) (n : Z) : Z :=
  if bytes_eqb (load a 0 n) (load b 0 n) then 0 else 1.

(** The scan at lines 116-123: [i] reaches [size] exactly when none of the
    first [size] bytes is non-zero. *)
Definition all_zero (buf : list Z) (size : Z) : bool :=
  forallb (fun b => b =? 0) (load buf 0 size).

(** ** Big numbers *)

(** [BN_num_bytes(a)] is [(BN_num_bits(a) + 7) / 8]. *)
Definition BN_num_bits (a : Z) : Z :=
  if a =? 0 then 0 else Z.log2 (Z.abs a) + 1.

Definition BN_num_bytes (a : Z) : Z := (BN_num_bits a + 7) / 8.

Definition BN_is_zero (a : Z) : bool := a =? 0.

(** ** Collaborators *)

(** A message digest: its output size and the streaming interface
    [EVP_DigestInit_ex] / [EVP_DigestUpdate] / [EVP_DigestFinal_ex], each of
    which may report failure. *)
Record EVP_MD : Type := {
  EVP_MD_CTX : Type;
  EVP_MD_size : Z;
  EVP_DigestInit_ex : option EVP_MD_CTX;
  EVP_DigestUpdate : EVP_MD_CTX -> list Z -> option EVP_MD_CTX;
  EVP_DigestFinal_ex : EVP_MD_CTX -> option (list Z)
}.

(** No call of the streaming interface of [md] reports failure. *)
Definition digest_never_fails (md : EVP_MD) : Prop :=
  EVP_DigestInit_ex md <> None
  /\ (forall ctx chunk, EVP_DigestUpdate md ctx chunk <> None)
  /\ (forall ctx, EVP_DigestFinal_ex md ctx <> None).

(** Modelled from the spec: the KDF behind [KDF_FUNC] (crypto/kdf) takes
    an input byte sequence and a desired output length and produces that
    many mask bytes.  Here: from the input bytes and the requested length
    [*outlen] to the bytes written at [out]; [*outlen] itself is left as it
    was. *)
Definition KDF_FUNC : Type := list Z -> Z -> list Z.

(** How a step ends: it falls through with a value, jumps to [err], aborts
    the process, or is still looping when the fuel is spent. *)
Inductive flow (A : Type) : Type :=
| Next (a : A)
| GotoErr
| Die
| Fuel.

Arguments GotoErr {A}.
Arguments Die {A}.
Arguments Fuel {A}.

Section Model.

Context {point : Type}.

(** An elliptic-curve group.  [EC_POINT_mul n q m] is
    [EC_POINT_mul(group, r, n, q, m, ctx)], that is [r = n*G + m*q], with
    NULL arguments as [None]; the result is [None] when the call returns 0.
    [EC_POINT_point2oct p] is the uncompressed encoding, or [None] if the
    encoder fails. *)
Record EC_GROUP : Type := {
  EC_GROUP_get_order : option Z;
  EC_GROUP_get_cofactor : option Z;
  EC_GROUP_get_degree : Z;
  EC_POINT_mul : option Z -> option point -> option Z -> option point;
  EC_POINT_is_at_infinity : point -> bool;
  EC_POINT_point2oct : point -> option (list Z)
}.

Record EC_KEY : Type := {
  EC_KEY_get0_group : option EC_GROUP;
  EC_KEY_get0_public_key : option point;
  EC_KEY_get0_private_key : option Z
}.

Record SM2_CIPHERTEXT_VALUE : Type := {
  ephem_point : option point;
  ciphertext : list Z;
  ciphertext_size : Z;
  mactag : list Z;
  mactag_size : Z
}.

(** What a call finds around it.
    - [KDF_get_x9_63 md]: the KDF for a digest, or NULL.
    - [BN_rand_range n i]: the [i]-th value the random source hands out
      for the range [n].
    - [malloc_cv]: [OPENSSL_malloc(sizeof(SM2_CIPHERTEXT_VALUE))] succeeds.
    - [OPENSSL_malloc size]: a request for [size] bytes succeeds.
    - [new_objects]: [EC_POINT_new], [BN_new], [BN_CTX_new] and
      [EVP_MD_CTX_create] succeed.
    - [stack_buf]: the bytes on the stack where [buf] is placed (its length
      is [sizeof(buf)]); [stack_below_buf]: the byte just below it. *)
Record environment : Type := {
  KDF_get_x9_63 : EVP_MD -> option KDF_FUNC;
  BN_rand_range : Z -> nat -> Z;
  malloc_cv : bool;
  OPENSSL_malloc : Z -> bool;
  new_objects : bool;
  stack_below_buf : Z;
  stack_buf : list Z
}.

Inductive event : Type :=
| EvRand (k : Z)
| EvGetOrder
| EvGetCofactor
| EvGetDegree
| EvMul (n : option Z) (q : option point) (m : option Z)
| EvIsInfinity (p : point)
| EvPoint2Oct (p : point)
| EvKDF (input : list Z) (outlen : Z)
| EvDigestInit
| EvDigestUpdate (chunk : list Z)
| EvDigestFinal (tag : option (list Z)).

Record machine : Type := {
  trace : list event;
  draws : nat;
  out : option (list Z);
  outlen : Z
}.

Definition start (o : option (list Z)) (len : Z) : machine :=
  {| trace := []; draws := 0; out := o; outlen := len |}.

Definition M (A : Type) : Type := machine -> flow A * machine.

Definition ret {A} (a : A) : M A := fun s => (Next a, s).

Definition bind {A B} (m : M A) (f : A -> M B) : M B :=
  fun s =>
    match m s with
    | (Next a, s') => f a s'
    | (GotoErr, s') => (GotoErr, s')
    | (Die, s') => (Die, s')
    | (Fuel, s') => (Fuel, s')
    end.

Definition goto_err {A} : M A := fun s => (GotoErr, s).
Definition out_of_fuel {A} : M A := fun s => (Fuel, s).

Definition log (e : event) : M unit :=
  fun s => (Next tt, {| trace := trace s ++ [e]; draws := draws s;
                        out := out s; outlen := outlen s |}).

(** [if (!x) goto err;] *)
Definition or_err {A} (x : option A) : M A :=
  match x with
  | Some a => ret a
  | None => goto_err
  end.

(** [if (!ok) goto err;] *)
Definition check (ok : bool) : M unit :=
  if ok then ret tt else goto_err.

Definition OPENSSL_assert (cond : bool) : M unit :=
  fun s => if cond then (Next tt, s) else (Die, s).

Notation "x <- m ;; k" := (bind m (fun x => k))
  (at level 61, m at next level, right associativity).
Notation "m ;;; k" := (bind m (fun _ => k))
  (at level 61, right associativity).

(** *** Calls into the collaborators *)

Definition call_BN_rand_range (env : environment) (n : Z) : M Z :=
  fun s =>
    let k := BN_rand_range env n (draws s) in
    (Next k, {| trace := trace s ++ [EvRand k]; draws := S (draws s);
                out := out s; outlen := outlen s |}).

Definition call_EC_GROUP_get_order (g : EC_GROUP) : M Z :=
  log EvGetOrder ;;; or_err (EC_GROUP_get_order g).

Definition call_EC_GROUP_get_cofactor (g : EC_GROUP) : M Z :=
  log EvGetCofactor ;;; or_err (EC_GROUP_get_cofactor g).

Definition call_EC_GROUP_get_degree (g : EC_GROUP) : M Z :=
  log EvGetDegree ;;; ret (EC_GROUP_get_degree g).

Definition call_EC_POINT_mul (g : EC_GROUP)
    (n : option Z) (q : option point) (m : option Z) : M point :=
  log (EvMul n q m) ;;; or_err (EC_POINT_mul g n q m).

Definition call_EC_POINT_is_at_infinity (g : EC_GROUP) (p : point) : M bool :=
  log (EvIsInfinity p) ;;; ret (EC_POINT_is_at_infinity g p).

(** [len = EC_POINT_point2oct(group, point, UNCOMPRESSED, buf, sizeof(buf),
    ctx)] followed by [if (!len) goto err]: the encoder returns 0 when it
    fails or when the encoding does not fit [buf]; otherwise [buf] holds the
    encoding at its start and whatever was on the stack after it. *)
Definition call_EC_POINT_point2oct (env : environment) (g : EC_GROUP)
    (p : point) : M (list Z * Z) :=
  log (EvPoint2Oct p) ;;;
  match EC_POINT_point2oct g p with
  | None => goto_err
  | Some enc =>
      let len := Z.of_nat (length enc) in
      if (len =? 0) || (Z.of_nat (length (stack_buf env)) <? len)
      then goto_err
      else ret (store enc (stack_buf env), len)
  end.

(** [kdf(buf - 1, len - 1, dst, &size)]: the input handed to the KDF is the
    [len - 1] bytes that start one byte below [buf]; the result is what the
    KDF writes at [dst]. *)
Definition call_kdf (env : environment) (kdf : KDF_FUNC)
    (buf : list Z) (len size : Z) : M (list Z) :=
  let input := load (stack_below_buf env :: buf) 0 (len - 1) in
  log (EvKDF input size) ;;; ret (kdf input size).

Definition call_EVP_DigestInit_ex (md : EVP_MD) : M (EVP_MD_CTX md) :=
  log EvDigestInit ;;; or_err (EVP_DigestInit_ex md).

Definition call_EVP_DigestUpdate (md : EVP_MD) (ctx : EVP_MD_CTX md)
    (chunk : list Z) : M (EVP_MD_CTX md) :=
  log (EvDigestUpdate chunk) ;;; or_err (EVP_DigestUpdate md ctx chunk).

(** [EVP_DigestFinal_ex(md_ctx, tag, &size)]: the tag and its size. *)
Definition call_EVP_DigestFinal_ex (md : EVP_MD) (ctx : EVP_MD_CTX md)
    : M (list Z * Z) :=
  log (EvDigestFinal (EVP_DigestFinal_ex md ctx)) ;;;
  tag <- or_err (EVP_DigestFinal_ex md ctx) ;;
  ret (tag, EVP_MD_size md).

Definition get_out : M (option (list Z)) := fun s => (Next (out s), s).
Definition get_outlen : M Z := fun s => (Next (outlen s), s).

Definition set_out (o : list Z) : M unit :=
  fun s => (Next tt, {| trace := trace s; draws := draws s;
                        out := Some o; outlen := outlen s |}).

Definition set_outlen (n : Z) : M unit :=
  fun s => (Next tt, {| trace := trace s; draws := draws s;
                        out := out s; outlen := n |}).

(** ** SM2_do_encrypt (lines 20-167) *)

(** Lines 86-88: [do BN_rand_range(k, n); while (BN_is_zero(k));] *)
Fixpoint draw_k (fuel : nat) (env : environment) (n : Z) : M Z :=
  match fuel with
  | O => out_of_fuel
  | S fuel' =>
      k <- call_BN_rand_range env n ;;
      if BN_is_zero k then draw_k fuel' env n else ret k
  end.

(** Lines 83-127: the [do ... while (1)] loop.  It is left by [break] with
    the ephemeral point, [buf] and the KDF output, or by [goto err];
    [continue] starts the next iteration.  The KDF is handed
    [&cv->ciphertext_size], which stays [size].  The draw is given the
    fuel the loop still has. *)
Fixpoint retry_loop (fuel : nat) (env : environment) (g : EC_GROUP)
    (pub_key : point) (kdf : KDF_FUNC) (n h nbytes size : Z)
    : M (point * list Z * list Z) :=
  match fuel with
  | O => out_of_fuel
  | S fuel' =>
      (* A1 *)
      k <- draw_k fuel env n ;;
      (* A2 *)
      c1 <- call_EC_POINT_mul g (Some k) None None ;;
      (* A3 *)
      hp <- call_EC_POINT_mul g None (Some pub_key) (Some h) ;;
      inf <- call_EC_POINT_is_at_infinity g hp ;;
      check (negb inf) ;;;
      (* A4 *)
      kp <- call_EC_POINT_mul g None (Some pub_key) (Some k) ;;
      bl <- call_EC_POINT_point2oct env g kp ;;
      OPENSSL_assert (snd bl =? nbytes * 2 + 1) ;;;
      (* A5 *)
      t <- call_kdf env kdf (fst bl) (snd bl) size ;;
      if all_zero t size
      then retry_loop fuel' env g pub_key kdf n h nbytes size
      else ret (c1, fst bl, t)
  end.

(** Lines 68-81, and again lines 213-226: order, cofactor, field size in
    bytes, and the four assertions.  Yields [(n, h, nbytes)]. *)
Definition domain_parameters (ec_group : EC_GROUP) (kdf_md mac_md : EVP_MD)
    : M (Z * Z * Z) :=
  n <- call_EC_GROUP_get_order ec_group ;;
  h <- call_EC_GROUP_get_cofactor ec_group ;;
  degree <- call_EC_GROUP_get_degree ec_group ;;
  let nbytes := Z.quot (degree + 7) 8 in
  OPENSSL_assert (nbytes =? BN_num_bytes n) ;;;
  OPENSSL_assert (nbytes =? 32) ;;;
  OPENSSL_assert (EVP_MD_size kdf_md =? 32) ;;;
  OPENSSL_assert (EVP_MD_size mac_md =? 32) ;;;
  ret (n, h, nbytes).

(** Lines 135-150, and again lines 254-269: the digest of
    [buf[1 .. nbytes]], the message bytes, [buf[1+nbytes .. 2*nbytes]]. *)
Definition compute_mac (mac_md : EVP_MD) (buf : list Z) (nbytes : Z)
    (msg : list Z) : M (list Z * Z) :=
  ctx <- call_EVP_DigestInit_ex mac_md ;;
  ctx <- call_EVP_DigestUpdate mac_md ctx (load buf 1 nbytes) ;;
  ctx <- call_EVP_DigestUpdate mac_md ctx msg ;;
  ctx <- call_EVP_DigestUpdate mac_md ctx (load buf (1 + nbytes) nbytes) ;;
  call_EVP_DigestFinal_ex mac_md ctx.

Definition encrypt_body (fuel : nat) (env : environment)
    (kdf_md mac_md : EVP_MD) (input : list Z) (ec_key : EC_KEY)
    : M SM2_CIPHERTEXT_VALUE :=
  let inlen := Z.of_nat (length input) in
  (* lines 39-44 *)
  ec_group <- or_err (EC_KEY_get0_group ec_key) ;;
  pub_key <- or_err (EC_KEY_get0_public_key ec_key) ;;
  kdf <- or_err (KDF_get_x9_63 env kdf_md) ;;
  (* lines 46-56: cv, cv->ephem_point, cv->ciphertext;
     cv->ciphertext_size = inlen *)
  check (malloc_cv env) ;;;
  check (new_objects env && OPENSSL_malloc env inlen) ;;;
  (* lines 58-66 *)
  check (new_objects env) ;;;
  (* lines 68-81 *)
  dp <- domain_parameters ec_group kdf_md mac_md ;;
  let n := fst (fst dp) in
  let h := snd (fst dp) in
  let nbytes := snd dp in
  (* lines 83-127 *)
  r <- retry_loop fuel env ec_group pub_key kdf n h nbytes inlen ;;
  let c1 := fst (fst r) in
  let buf := snd (fst r) in
  let t := snd r in
  (* A6, lines 130-133 *)
  let c2 := xor_into t input in
  (* A7, lines 135-150 *)
  tag <- compute_mac mac_md buf nbytes input ;;
  ret {| ephem_point := Some c1;
         ciphertext := c2;
         ciphertext_size := inlen;
         mactag := fst tag;
         mactag_size := snd tag |}.

Inductive enc_result : Type :=
| EncReturn (cv : option SM2_CIPHERTEXT_VALUE)
| EncAbort
| EncFuel.

(** Lines 152-166: on [ok = 1] the ciphertext value is returned; at [err]
    with [ok = 0] it is freed and NULL is returned. *)
Definition SM2_do_encrypt (fuel : nat) (env : environment)
    (kdf_md mac_md : EVP_MD) (input : list Z) (ec_key : EC_KEY)
    : enc_result * machine :=
  match encrypt_body fuel env kdf_md mac_md input ec_key (start None 0) with
  | (Next cv, s) => (EncReturn (Some cv), s)
  | (GotoErr, s) => (EncReturn None, s)
  | (Die, s) => (EncAbort, s)
  | (Fuel, s) => (EncFuel, s)
  end.

(** ** SM2_do_decrypt (lines 170-283) *)

(** [pub_key] is not declared in this function; it is read as the public
    point of [ec_key], as in [SM2_do_encrypt]. *)
Definition decrypt_body (env : environment) (cv : SM2_CIPHERTEXT_VALUE)
    (kdf_md mac_md : EVP_MD) (ec_key : EC_KEY) : M Z :=
  (* lines 188-193 *)
  ec_group <- or_err (EC_KEY_get0_group ec_key) ;;
  pub_key <- or_err (EC_KEY_get0_public_key ec_key) ;;
  kdf <- or_err (KDF_get_x9_63 env kdf_md) ;;
  (* lines 195-198 *)
  o <- get_out ;;
  match o with
  | None => set_outlen (ciphertext_size cv) ;;; ret 1
  | Some b0 =>
      (* lines 199-201 *)
      cap <- get_outlen ;;
      check (negb (cap <? ciphertext_size cv)) ;;;
      (* lines 203-211 *)
      check (new_objects env) ;;;
      (* lines 213-226 *)
      dp <- domain_parameters ec_group kdf_md mac_md ;;
      let h := snd (fst dp) in
      let nbytes := snd dp in
      (* B2, lines 228-234 *)
      hc1 <- call_EC_POINT_mul ec_group None (ephem_point cv) (Some h) ;;
      inf <- call_EC_POINT_is_at_infinity ec_group hc1 ;;
      check (negb inf) ;;;
      (* B3, lines 236-243 *)
      dc1 <- call_EC_POINT_mul ec_group None (ephem_point cv)
               (EC_KEY_get0_private_key ec_key) ;;
      bl <- call_EC_POINT_point2oct env ec_group dc1 ;;
      let buf := fst bl in
      let len := snd bl in
      (* B4, lines 245-246 *)
      cap <- get_outlen ;;
      t <- call_kdf env kdf buf len cap ;;
      let b1 := store t b0 in
      set_out b1 ;;;
      (* B5, lines 249-252 *)
      let b2 := xor_into b1 (load (ciphertext cv) 0 (ciphertext_size cv)) in
      set_out b2 ;;;
      (* B6, lines 254-272 *)
      cap <- get_outlen ;;
      mac <- compute_mac mac_md buf nbytes (load b2 0 cap) ;;
      let maclen := snd mac in
      if negb (mactag_size cv =? maclen)
         || negb (memcmp (mactag cv) (fst mac) maclen =? 0)
      then goto_err
      else ret 1
  end.

Inductive dec_result : Type :=
| DecReturn (r : Z)
| DecAbort.

(** The caller passes [out] (possibly NULL) and [*outlen]; on return the
    machine holds what the buffer and [*outlen] have become.  At [err]
    [ret] is still 0.  No step of [decrypt_body] loops, so the last case
    does not arise. *)
Definition SM2_do_decrypt (env : environment) (cv : SM2_CIPHERTEXT_VALUE)
    (kdf_md mac_md : EVP_MD) (o : option (list Z)) (len : Z)
    (ec_key : EC_KEY) : dec_result * machine :=
  match decrypt_body env cv kdf_md mac_md ec_key (start o len) with
  | (Next r, s) => (DecReturn r, s)
  | (GotoErr, s) => (DecReturn 0, s)
  | (Die, s) => (DecAbort, s)
  | (Fuel, s) => (DecAbort, s)
  end.

(** ** Reading a trace *)

(** The point operations: multiplication, infinity test, encoding. *)
Definition is_point_op (e : event) : bool :=
  match e with
  | EvMul _ _ _ | EvIsInfinity _ | EvPoint2Oct _ => true
  | _ => false
  end.

Definition point_ops (t : list event) : list event := filter is_point_op t.

(** The KDF calls, each with its input and requested length. *)
Definition kdf_calls (t : list event) : list (list Z * Z) :=
  flat_map (fun e => match e with EvKDF i n => [(i, n)] | _ => [] end) t.

(** The points tested by [EC_POINT_is_at_infinity]. *)
Definition infinity_tests (t : list event) : list point :=
  flat_map (fun e => match e with EvIsInfinity p => [p] | _ => [] end) t.

(** The chunks fed to [EVP_DigestUpdate]. *)
Definition digest_chunks (t : list event) : list (list Z) :=
  flat_map (fun e => match e with EvDigestUpdate c => [c] | _ => [] end) t.

(** The tags [EVP_DigestFinal_ex] produced. *)
Definition digest_tags (t : list event) : list (list Z) :=
  flat_map (fun e => match e with EvDigestFinal (Some g) => [g] | _ => [] end)
    t.

(** KDF calls with the inputs [inputs], each asked for [size] bytes. *)
Definition requests (size : Z) (inputs : list (list Z))
    : list (list Z * Z) :=
  map (fun i => (i, size)) inputs.

(** Every event of [t] is a draw from the random source. *)
Definition only_draws (t : list event) : bool :=
  forallb (fun e => match e with EvRand _ => true | _ => false end) t.

(** Every event of [t] is a query of the group parameters. *)
Definition only_queries (t : list event) : bool :=
  forallb (fun e => match e with
                    | EvGetOrder | EvGetCofactor | EvGetDegree => true
                    | _ => false
                    end) t.

(** ** Conditions on a call of [SM2_do_encrypt] *)

(** Lines 39-66 go through: the key has a group and a public point, a KDF
    exists and the allocations succeed. *)
Definition encrypt_setup_ok (env : environment) (kdf_md : EVP_MD)
    (ec_key : EC_KEY) (inlen : Z) (g : EC_GROUP) (pub_key : point)
    (kdf : KDF_FUNC) : Prop :=
  EC_KEY_get0_group ec_key = Some g
  /\ EC_KEY_get0_public_key ec_key = Some pub_key
  /\ KDF_get_x9_63 env kdf_md = Some kdf
  /\ malloc_cv env = true
  /\ new_objects env = true
  /\ OPENSSL_malloc env inlen = true.

(** Lines 68-79 go through: order and cofactor are available and the field
    and the order are both 32 bytes long. *)
Definition parameters_ok (g : EC_GROUP) (n h : Z) : Prop :=
  EC_GROUP_get_order g = Some n
  /\ EC_GROUP_get_cofactor g = Some h
  /\ Z.quot (EC_GROUP_get_degree g + 7) 8 = 32
  /\ BN_num_bytes n = 32.

(** Everything before the loop (lines 39-81) goes through. *)
Definition reaches_loop (env : environment) (kdf_md mac_md : EVP_MD)
    (ec_key : EC_KEY) (inlen : Z) (g : EC_GROUP) (pub_key : point)
    (kdf : KDF_FUNC) (n h : Z) : Prop :=
  encrypt_setup_ok env kdf_md ec_key inlen g pub_key kdf
  /\ parameters_ok g n h
  /\ EVP_MD_size kdf_md = 32
  /\ EVP_MD_size mac_md = 32.

(** ** Conditions on a call of [SM2_do_decrypt] with an output buffer *)

(** Lines 188-211 go through: the key has a group and a public point, a KDF
    exists, the declared capacity is not below [cv->ciphertext_size] and
    the allocations succeed. *)
Definition decrypt_setup_ok (env : environment) (cv : SM2_CIPHERTEXT_VALUE)
    (kdf_md : EVP_MD) (ec_key : EC_KEY) (cap : Z) (g : EC_GROUP)
    (kdf : KDF_FUNC) : Prop :=
  EC_KEY_get0_group ec_key = Some g
  /\ EC_KEY_get0_public_key ec_key <> None
  /\ KDF_get_x9_63 env kdf_md = Some kdf
  /\ ciphertext_size cv <= cap
  /\ new_objects env = true.

(** [cv] with the tag bytes replaced by [tag]. *)
Definition with_mactag (cv : SM2_CIPHERTEXT_VALUE) (tag : list Z)
    : SM2_CIPHERTEXT_VALUE :=
  {| ephem_point := ephem_point cv;
     ciphertext := ciphertext cv;
     ciphertext_size := ciphertext_size cv;
     mactag := tag;
     mactag_size := mactag_size cv |}.

(** ** Conditions relating a decrypting call to the encrypting one *)

(** The decrypting call finds the same KDF, the same bytes on the stack at
    and below [buf], and its allocations succeed. *)
Definition same_surroundings (env env' : environment) (kdf_md : EVP_MD)
    : Prop :=
  KDF_get_x9_63 env' kdf_md = KDF_get_x9_63 env kdf_md
  /\ stack_below_buf env' = stack_below_buf env
  /\ stack_buf env' = stack_buf env
  /\ new_objects env' = true.

(** The KDF writes as many bytes as it is asked for. *)
Definition kdf_fills (env : environment) (kdf_md : EVP_MD) : Prop :=
  forall kdf z n,
    KDF_get_x9_63 env kdf_md = Some kdf -> 0 <= n ->
    length (kdf z n) = Z.to_nat n.

(** For every non-zero scalar [k] the random source hands out, with
    [C1 = k*G]: [h*C1] is computed and is not at infinity, and the private
    scalar [d] gives [d*C1 = k*P]. *)
Definition key_agreement (env : environment) (g : EC_GROUP) (ec_key : EC_KEY)
    (d : Z) : Prop :=
  forall n h pub_key i c1,
    EC_GROUP_get_order g = Some n ->
    EC_GROUP_get_cofactor g = Some h ->
    EC_KEY_get0_public_key ec_key = Some pub_key ->
    BN_rand_range env n i <> 0 ->
    EC_POINT_mul g (Some (BN_rand_range env n i)) None None = Some c1 ->
    (exists hc1, EC_POINT_mul g None (Some c1) (Some h) = Some hc1
                 /\ EC_POINT_is_at_infinity g hc1 = false)
    /\ EC_POINT_mul g None (Some c1) (Some d)
       = EC_POINT_mul g None (Some pub_key) (Some (BN_rand_range env n i)).

(** No step of an iteration fails: [h*P] is computed and is not at
    infinity, and for every non-zero scalar the random source hands out,
    [k*G] and [k*P] are computed and [k*P] is encoded on [2*nbytes + 1]
    bytes that fit [buf]. *)
Definition iteration_ok (env : environment) (g : EC_GROUP) (pub_key : point)
    (n h nbytes : Z) : Prop :=
  (exists hp, EC_POINT_mul g None (Some pub_key) (Some h) = Some hp
              /\ EC_POINT_is_at_infinity g hp = false)
  /\ forall i, BN_rand_range env n i <> 0 ->
       (exists c1, EC_POINT_mul g (Some (BN_rand_range env n i)) None None
                   = Some c1)
       /\ (exists kp enc,
            EC_POINT_mul g None (Some pub_key) (Some (BN_rand_range env n i))
              = Some kp
            /\ EC_POINT_point2oct g kp = Some enc
            /\ Z.of_nat (length enc) = nbytes * 2 + 1
            /\ (length enc <= length (stack_buf env))%nat).

End Model.

Arguments EC_GROUP : clear implicits.
Arguments EC_KEY : clear implicits.
Arguments SM2_CIPHERTEXT_VALUE : clear implicits.
Arguments event : clear implicits.
Arguments machine : clear implicits.
Arguments M : clear implicits.

(** ** Allocation and release (lines 12-18, 46-66, 152-166, 203-211,
    275-282)

    The objects a call creates, the order in which it creates them, and
    what the code at [err] and [SM2_CIPEHRTEXT_VALUE_free] release.  A
    heap is the list of the objects that are allocated, with a flag that
    records a release of something that was not. *)

Inductive object : Type :=
| ObjCv            (* the SM2_CIPHERTEXT_VALUE itself *)
| ObjEphemPoint    (* cv->ephem_point *)
| ObjCiphertext    (* cv->ciphertext *)
| ObjPoint         (* point *)
| ObjN             (* n *)
| ObjH             (* h *)
| ObjK             (* k *)
| ObjBnCtx         (* bn_ctx *)
| ObjMdCtx.        (* md_ctx *)

Definition object_eqb (a b : object) : bool :=
  match a, b with
  | ObjCv, ObjCv | ObjEphemPoint, ObjEphemPoint
  | ObjCiphertext, ObjCiphertext | ObjPoint, ObjPoint | ObjN, ObjN
  | ObjH, ObjH | ObjK, ObjK | ObjBnCtx, ObjBnCtx | ObjMdCtx, ObjMdCtx => true
  | _, _ => false
  end.

Record heap : Type := {
  live : list object;
  bad_free : bool
}.

Definition empty_heap : heap := {| live := []; bad_free := false |}.

(** The oracle that answers with the given booleans. *)
Definition oracle_of (cv ephem ct point n h k bn_ctx md_ctx : bool)
    (o : object) : bool :=
  match o with
  | ObjCv => cv
  | ObjEphemPoint => ephem
  | ObjCiphertext => ct
  | ObjPoint => point
  | ObjN => n
  | ObjH => h
  | ObjK => k
  | ObjBnCtx => bn_ctx
  | ObjMdCtx => md_ctx
  end.

(** A constructor call: [oracle o] says whether it succeeds; the result is
    whether the pointer obtained is non-NULL. *)
Definition allocate (oracle : object -> bool) (o : object) (hp : heap)
    : bool * heap :=
  if oracle o
  then (true, {| live := o :: live hp; bad_free := bad_free hp |})
  else (false, hp).

Definition release (o : object) (hp : heap) : heap :=
  if existsb (object_eqb o) (live hp)
  then {| live := filter (fun x => negb (object_eqb o x)) (live hp);
          bad_free := bad_free hp |}
  else {| live := live hp; bad_free := true |}.

(** [if (p) free(p);] *)
Definition release_if (p : bool) (o : object) (hp : heap) : heap :=
  if p then release o hp else hp.

(** The two pointer fields of a ciphertext value: which are non-NULL. *)
Record cv_fields : Type := {
  has_ephem_point : bool;
  has_ciphertext : bool
}.

(** Lines 12-18 (the name is spelled [SM2_CIPEHRTEXT_VALUE_free] there and
    [SM2_CIPHERTEXT_VALUE_free] at the call on line 156; the call is read
    as a call of this function).  [bzero] clears the structure between the
    release of its fields and its own release. *)
Definition SM2_CIPEHRTEXT_VALUE_free (cv : cv_fields) (hp : heap) : heap :=
  let hp := release_if (has_ephem_point cv) ObjEphemPoint hp in
  let hp := release_if (has_ciphertext cv) ObjCiphertext hp in
  release ObjCv hp.

(** The pointers of [SM2_do_encrypt] that own an object: which are
    non-NULL.  All start as NULL. *)
Record encrypt_locals : Type := {
  enc_cv : option cv_fields;
  enc_point : bool;
  enc_n : bool;
  enc_h : bool;
  enc_k : bool;
  enc_bn_ctx : bool;
  enc_md_ctx : bool
}.

Definition encrypt_locals0 : encrypt_locals :=
  {| enc_cv := None; enc_point := false; enc_n := false; enc_h := false;
     enc_k := false; enc_bn_ctx := false; enc_md_ctx := false |}.

(** Lines 154-166, from the label [err] to [return cv]: the result says
    whether the pointer returned is non-NULL. *)
Definition encrypt_err (ok : bool) (l : encrypt_locals) (hp : heap)
    : bool * heap :=
  let r :=
    match enc_cv l with
    | Some cv =>
        if negb ok then (false, SM2_CIPEHRTEXT_VALUE_free cv hp)
        else (true, hp)
    | None => (false, hp)
    end in
  let hp := snd r in
  let hp := release_if (enc_n l) ObjN hp in
  let hp := release_if (enc_h l) ObjH hp in
  let hp := release_if (enc_k l) ObjK hp in
  let hp := release_if (enc_bn_ctx l) ObjBnCtx hp in
  let hp := release_if (enc_md_ctx l) ObjMdCtx hp in
  (fst r, hp).

(** The allocations of [SM2_do_encrypt] and its exit, for a call that
    returns.  [guards]: the tests of lines 39-44 pass.  [rest]: lines
    68-150, which create and release none of these objects, reach
    [ok = 1] on line 152 (otherwise they leave by [goto err]). *)
Definition encrypt_heap (oracle : object -> bool) (guards rest : bool)
    : bool * heap :=
  let l := encrypt_locals0 in
  let hp := empty_heap in
  if negb guards then encrypt_err false l hp else
  (* lines 46-49 *)
  let a := allocate oracle ObjCv hp in
  if negb (fst a) then encrypt_err false l (snd a) else
  (* lines 50-56 *)
  let e := allocate oracle ObjEphemPoint (snd a) in
  let c := allocate oracle ObjCiphertext (snd e) in
  let l := {| enc_cv := Some {| has_ephem_point := fst e;
                                has_ciphertext := fst c |};
              enc_point := false; enc_n := false; enc_h := false;
              enc_k := false; enc_bn_ctx := false; enc_md_ctx := false |} in
  if negb (fst e) || negb (fst c) then encrypt_err false l (snd c) else
  (* lines 58-66 *)
  let p := allocate oracle ObjPoint (snd c) in
  let n := allocate oracle ObjN (snd p) in
  let h := allocate oracle ObjH (snd n) in
  let k := allocate oracle ObjK (snd h) in
  let b := allocate oracle ObjBnCtx (snd k) in
  let m := allocate oracle ObjMdCtx (snd b) in
  let l := {| enc_cv := enc_cv l;
              enc_point := fst p; enc_n := fst n; enc_h := fst h;
              enc_k := fst k; enc_bn_ctx := fst b; enc_md_ctx := fst m |} in
  if negb (fst p) || negb (fst n) || negb (fst h) || negb (fst k)
     || negb (fst b) || negb (fst m)
  then encrypt_err false l (snd m)
  else encrypt_err rest l (snd m).

(** The pointers of [SM2_do_decrypt] that own an object. *)
Record decrypt_locals : Type := {
  dec_point : bool;
  dec_n : bool;
  dec_h : bool;
  dec_bn_ctx : bool;
  dec_md_ctx : bool
}.

Definition decrypt_locals0 : decrypt_locals :=
  {| dec_point := false; dec_n := false; dec_h := false;
     dec_bn_ctx := false; dec_md_ctx := false |}.

(** Lines 275-282, from the label [err] to [return ret]. *)
Definition decrypt_err (l : decrypt_locals) (hp : heap) : heap :=
  let hp := release_if (dec_point l) ObjPoint hp in
  let hp := release_if (dec_n l) ObjN hp in
  let hp := release_if (dec_h l) ObjH hp in
  let hp := release_if (dec_bn_ctx l) ObjBnCtx hp in
  release_if (dec_md_ctx l) ObjMdCtx hp.

(** The allocations of [SM2_do_decrypt] and its exit, for a call that
    returns.  [guards]: the tests of lines 188-193 pass.  [query]: [out]
    is NULL, and the call returns on line 197.  [fits]: the test of line
    199 passes.  Lines 213-273 create and release none of these objects
    and end at [err] either way. *)
Definition decrypt_heap (oracle : object -> bool) (guards query fits : bool)
    : heap :=
  let l := decrypt_locals0 in
  let hp := empty_heap in
  if negb guards then decrypt_err l hp else
  if query then hp else
  if negb fits then decrypt_err l hp else
  (* lines 203-211 *)
  let p := allocate oracle ObjPoint hp in
  let n := allocate oracle ObjN (snd p) in
  let h := allocate oracle ObjH (snd n) in
  let b := allocate oracle ObjBnCtx (snd h) in
  let m := allocate oracle ObjMdCtx (snd b) in
  let l := {| dec_point := fst p; dec_n := fst n; dec_h := fst h;
              dec_bn_ctx := fst b; dec_md_ctx := fst m |} in
  decrypt_err l (snd m).

(** ** The heap when [SM2_do_encrypt] returns *)

(** The constructors as the environment serves them: [OPENSSL_malloc] at
    lines 47 and 52, and [EC_POINT_new], [BN_new], [BN_CTX_new],
    [EVP_MD_CTX_create] at lines 51 and 58-63. *)
Definition encrypt_oracle (env : environment) (inlen : Z) (o : object)
    : bool :=
  match o with
  | ObjCv => malloc_cv env
  | ObjCiphertext => OPENSSL_malloc env inlen
  | ObjEphemPoint | ObjPoint | ObjN | ObjH | ObjK | ObjBnCtx | ObjMdCtx =>
      new_objects env
  end.

(** The tests of lines 39-44 pass. *)
Definition encrypt_guards {point : Type} (env : environment)
    (kdf_md : EVP_MD) (ec_key : EC_KEY point) : bool :=
  match EC_KEY_get0_group ec_key, EC_KEY_get0_public_key ec_key,
        KDF_get_x9_63 env kdf_md with
  | Some _, Some _, Some _ => true
  | _, _, _ => false
  end.

(** Whether the pointer a call of [SM2_do_encrypt] returns is non-NULL,
    and the heap it leaves; [None] for a call that is aborted or does
    not return.  Lines 68-150 reach [ok = 1] exactly when the call returns
    a ciphertext value. *)
Definition encrypt_exit {point : Type} (fuel : nat) (env : environment)
    (kdf_md mac_md : EVP_MD) (input : list Z) (ec_key : EC_KEY point)
    : option (bool * heap) :=
  let oracle := encrypt_oracle env (Z.of_nat (length input)) in
  let guards := encrypt_guards env kdf_md ec_key in
  match fst (SM2_do_encrypt fuel env kdf_md mac_md input ec_key) with
  | EncReturn (Some _) => Some (encrypt_heap oracle guards true)
  | EncReturn None => Some (encrypt_heap oracle guards false)
  | EncAbort | EncFuel => None
  end.

(** ** A concrete set of collaborators: SM3 and the SM2 curve

    The digest SM3 (GM/T 0004), the ANSI X9.63 KDF built on a digest, and
    the 256-bit curve recommended for SM2 (GM/T 0003.5), written so that
    the two routines can be run on concrete inputs. *)

Fixpoint be_bytes (n : nat) (x : Z) : list Z :=
  match n with
  | O => []
  | S n' => be_bytes n' (x / 256) ++ [x mod 256]
  end.

Fixpoint be_value (bs : list Z) (acc : Z) : Z :=
  match bs with
  | [] => acc
  | b :: bs' => be_value bs' (acc * 256 + b)
  end.

Definition w32 (x : Z) : Z := Z.land x 0xffffffff.

Definition rotl (x n : Z) : Z :=
  let n := n mod 32 in
  w32 (Z.lor (Z.shiftl x n) (Z.shiftr x (32 - n))).

Definition sm3_P0 (x : Z) : Z := Z.lxor x (Z.lxor (rotl x 9) (rotl x 17)).
Definition sm3_P1 (x : Z) : Z := Z.lxor x (Z.lxor (rotl x 15) (rotl x 23)).
Definition sm3_T (j : Z) : Z := if j <? 16 then 0x79cc4519 else 0x7a879d8a.

Definition sm3_FF (j x y z : Z) : Z :=
  if j <? 16 then Z.lxor x (Z.lxor y z)
  else Z.lor (Z.land x y) (Z.lor (Z.land x z) (Z.land y z)).

Definition sm3_GG (j x y z : Z) : Z :=
  if j <? 16 then Z.lxor x (Z.lxor y z)
  else Z.lor (Z.land x y) (Z.land (Z.lxor x 0xffffffff) z).

Fixpoint sm3_words (n : nat) (bs : list Z) : list Z :=
  match n with
  | O => []
  | S n' => be_value (firstn 4 bs) 0 :: sm3_words n' (skipn 4 bs)
  end.

(** Message expansion; the words computed so far are kept newest first. *)
Fixpoint sm3_expand (n : nat) (rev_w : list Z) : list Z :=
  match n with
  | O => rev_w
  | S n' =>
      let w k := nth k rev_w 0 in
      let x := Z.lxor (w 15%nat) (Z.lxor (w 8%nat) (rotl (w 2%nat) 15)) in
      sm3_expand n'
        (Z.lxor (sm3_P1 x) (Z.lxor (rotl (w 12%nat) 7) (w 5%nat)) :: rev_w)
  end.

Record sm3_state : Type := {
  rA : Z; rB : Z; rC : Z; rD : Z; rE : Z; rF : Z; rG : Z; rH : Z
}.

Definition sm3_round (j wj wj' : Z) (v : sm3_state) : sm3_state :=
  let a12 := rotl (rA v) 12 in
  let ss1 := rotl (w32 (a12 + rE v + rotl (sm3_T j) j)) 7 in
  let ss2 := Z.lxor ss1 a12 in
  let tt1 := w32 (sm3_FF j (rA v) (rB v) (rC v) + rD v + ss2 + wj') in
  let tt2 := w32 (sm3_GG j (rE v) (rF v) (rG v) + rH v + ss1 + wj) in
  {| rA := tt1; rB := rA v; rC := rotl (rB v) 9; rD := rC v;
     rE := sm3_P0 tt2; rF := rE v; rG := rotl (rF v) 19; rH := rG v |}.

Fixpoint sm3_rounds (n : nat) (j : Z) (w : list Z) (v : sm3_state)
    : sm3_state :=
  match n, w with
  | S n', wj :: w' =>
      sm3_rounds n' (j + 1) w' (sm3_round j wj (Z.lxor wj (nth 3 w' 0)) v)
  | _, _ => v
  end.

Definition sm3_compress (v : sm3_state) (block : list Z) : sm3_state :=
  let w := rev (sm3_expand 52 (rev (sm3_words 16 block))) in
  let r := sm3_rounds 64 0 w v in
  {| rA := Z.lxor (rA r) (rA v); rB := Z.lxor (rB r) (rB v);
     rC := Z.lxor (rC r) (rC v); rD := Z.lxor (rD r) (rD v);
     rE := Z.lxor (rE r) (rE v); rF := Z.lxor (rF r) (rF v);
     rG := Z.lxor (rG r) (rG v); rH := Z.lxor (rH r) (rH v) |}.

Definition sm3_iv : sm3_state :=
  {| rA := 0x7380166f; rB := 0x4914b2b9; rC := 0x172442d7; rD := 0xda8a0600;
     rE := 0xa96f30bc; rF := 0x163138aa; rG := 0xe38dee4d; rH := 0xb0fb0e4e |}.

Definition sm3_pad (msg : list Z) : list Z :=
  let l := Z.of_nat (length msg) in
  msg ++ [128] ++ repeat 0 (Z.to_nat ((55 - l) mod 64)) ++ be_bytes 8 (8 * l).

Fixpoint sm3_blocks (n : nat) (v : sm3_state) (bs : list Z) : sm3_state :=
  match n with
  | O => v
  | S n' => sm3_blocks n' (sm3_compress v (firstn 64 bs)) (skipn 64 bs)
  end.

Definition sm3 (msg : list Z) : list Z :=
  let p := sm3_pad msg in
  let v := sm3_blocks (Nat.div (length p) 64) sm3_iv p in
  be_bytes 4 (rA v) ++ be_bytes 4 (rB v) ++ be_bytes 4 (rC v)
  ++ be_bytes 4 (rD v) ++ be_bytes 4 (rE v) ++ be_bytes 4 (rF v)
  ++ be_bytes 4 (rG v) ++ be_bytes 4 (rH v).

(** A digest given by a one-shot function; the context is the data so far. *)
Definition digest_of (size : Z) (h : list Z -> list Z) : EVP_MD :=
  {| EVP_MD_CTX := list Z;
     EVP_MD_size := size;
     EVP_DigestInit_ex := Some [];
     EVP_DigestUpdate := fun ctx chunk => Some (ctx ++ chunk);
     EVP_DigestFinal_ex := fun ctx => Some (h ctx) |}.

Definition EVP_sm3 : EVP_MD := digest_of 32 sm3.

(** A digest with a 20-byte output (SM3 cut to 160 bits). *)
Definition EVP_sm3_160 : EVP_MD := digest_of 20 (fun m => firstn 20 (sm3 m)).

Definition EVP_Digest (md : EVP_MD) (data : list Z) : list Z :=
  match EVP_DigestInit_ex md with
  | Some c0 =>
      match EVP_DigestUpdate md c0 data with
      | Some c1 =>
          match EVP_DigestFinal_ex md c1 with
          | Some tag => tag
          | None => []
          end
      | None => []
      end
  | None => []
  end.

(** X9.63: the digests of [z || counter], counter = 1, 2, ..., cut to the
    requested length. *)
Fixpoint x963_blocks (md : EVP_MD) (z : list Z) (counter : Z) (n : nat)
    : list Z :=
  match n with
  | O => []
  | S n' =>
      EVP_Digest md (z ++ be_bytes 4 counter)
      ++ x963_blocks md z (counter + 1) n'
  end.

Definition x963_kdf (md : EVP_MD) : KDF_FUNC :=
  fun z outlen =>
    let size := EVP_MD_size md in
    firstn (Z.to_nat outlen)
      (x963_blocks md z 1 (Z.to_nat ((outlen + size - 1) / size))).

(** The curve y^2 = x^3 + a x + b over GF(p), in affine coordinates;
    [None] is the point at infinity. *)
Definition sm2_p : Z :=
  0xFFFFFFFEFFFFFFFFFFFFFFFFFFFFFFFFFFFFFFFF00000000FFFFFFFFFFFFFFFF.
Definition sm2_a : Z :=
  0xFFFFFFFEFFFFFFFFFFFFFFFFFFFFFFFFFFFFFFFF00000000FFFFFFFFFFFFFFFC.
Definition sm2_b : Z :=
  0x28E9FA9E9D9F5E344D5A9E4BCF6509A7F39789F515AB8F92DDBCBD414D940E93.
Definition sm2_n : Z :=
  0xFFFFFFFEFFFFFFFFFFFFFFFFFFFFFFFF7203DF6B21C6052B53BBF40939D54123.
Definition sm2_Gx : Z :=
  0x32C4AE2C1F1981195F9904466A39C9948FE30BBFF2660BE1715A4589334C74C7.
Definition sm2_Gy : Z :=
  0xBC3736A2F4F6779C59BDCEE36B692153D0A9877CC62A474002DF32E52139F0A0.

Definition sm2_point : Type := option (Z * Z).

Definition sm2_G : sm2_point := Some (sm2_Gx, sm2_Gy).

Fixpoint egcd (fuel : nat) (r0 r1 t0 t1 : Z) : Z :=
  match fuel with
  | O => t0
  | S fuel' =>
      if r1 =? 0 then t0
      else let q := r0 / r1 in egcd fuel' r1 (r0 - q * r1) t1 (t0 - q * t1)
  end.

Definition inv_p (x : Z) : Z := egcd 600 sm2_p (x mod sm2_p) 0 1 mod sm2_p.

Definition on_curve (P : sm2_point) : bool :=
  match P with
  | None => true
  | Some (x, y) =>
      (y * y) mod sm2_p =? (x * x * x + sm2_a * x + sm2_b) mod sm2_p
  end.

Definition ec_add (P Q : sm2_point) : sm2_point :=
  match P, Q with
  | None, _ => Q
  | _, None => P
  | Some (x1, y1), Some (x2, y2) =>
      if (x1 =? x2) && (negb (y1 =? y2) || (y1 =? 0)) then None
      else
        let l :=
          if x1 =? x2
          then ((3 * x1 * x1 + sm2_a) * inv_p (2 * y1)) mod sm2_p
          else ((y2 - y1) * inv_p (x2 - x1)) mod sm2_p in
        let x3 := (l * l - x1 - x2) mod sm2_p in
        Some (x3, (l * (x1 - x3) - y1) mod sm2_p)
  end.

Fixpoint ec_mul_pos (k : positive) (P : sm2_point) : sm2_point :=
  match k with
  | xH => P
  | xO k' => let Q := ec_mul_pos k' P in ec_add Q Q
  | xI k' => let Q := ec_mul_pos k' P in ec_add (ec_add Q Q) P
  end.

Definition ec_mul (k : Z) (P : sm2_point) : sm2_point :=
  match k with
  | Zpos k' => ec_mul_pos k' P
  | _ => None
  end.

(** [n*G + m*q]; a NULL scalar or point drops its term. *)
Definition sm2_EC_POINT_mul (n : option Z) (q : option sm2_point)
    (m : option Z) : option sm2_point :=
  let t1 := match n with Some n' => ec_mul n' sm2_G | None => None end in
  let t2 := match q, m with
            | Some q', Some m' => ec_mul m' q'
            | _, _ => None
            end in
  Some (ec_add t1 t2).

(** Uncompressed form: 0x04 || x || y; the point at infinity is the single
    byte 0x00. *)
Definition sm2_point2oct (P : sm2_point) : list Z :=
  match P with
  | None => [0]
  | Some (x, y) => 4 :: be_bytes 32 x ++ be_bytes 32 y
  end.

Definition sm2_group : EC_GROUP sm2_point :=
  {| EC_GROUP_get_order := Some sm2_n;
     EC_GROUP_get_cofactor := Some 1;
     EC_GROUP_get_degree := 256;
     EC_POINT_mul := sm2_EC_POINT_mul;
     EC_POINT_is_at_infinity :=
       fun P => match P with None => true | Some _ => false end;
     EC_POINT_point2oct := fun P => Some (sm2_point2oct P) |}.

(** [buf] is [(OPENSSL_ECC_MAX_FIELD_BITS + 7)/4 + 1] bytes, with
    [OPENSSL_ECC_MAX_FIELD_BITS] = 661. *)
Definition sizeof_buf : nat := Z.to_nat ((661 + 7) / 4 + 1).

(** An environment in which every allocation succeeds, the random source
    always hands out [k], and the stack holds [below] under [buf]. *)
Definition test_env (k below : Z) : environment :=
  {| KDF_get_x9_63 := fun md => Some (x963_kdf md);
     BN_rand_range := fun _ _ => k;
     malloc_cv := true;
     OPENSSL_malloc := fun _ => true;
     new_objects := true;
     stack_below_buf := below;
     stack_buf := repeat 0 sizeof_buf |}.

(** As [test_env], with an allocator that returns NULL for a request of
    zero bytes. *)
Definition strict_alloc_env (k below : Z) : environment :=
  {| KDF_get_x9_63 := fun md => Some (x963_kdf md);
     BN_rand_range := fun _ _ => k;
     malloc_cv := true;
     OPENSSL_malloc := fun size => 0 <? size;
     new_objects := true;
     stack_below_buf := below;
     stack_buf := repeat 0 sizeof_buf |}.

(** A key pair: d = 5 and P = 5*G. *)
Definition test_d : Z := 5.

Definition test_P := Eval vm_compute in ec_mul test_d sm2_G.

Definition test_key : EC_KEY sm2_point :=
  {| EC_KEY_get0_group := Some sm2_group;
     EC_KEY_get0_public_key := Some test_P;
     EC_KEY_get0_private_key := Some test_d |}.

(** The message of the standard's example, "encryption standard". *)
Definition test_msg : list Z :=
  [101; 110; 99; 114; 121; 112; 116; 105; 111; 110;
   32; 115; 116; 97; 110; 100; 97; 114; 100].

Definition empty_cv : SM2_CIPHERTEXT_VALUE sm2_point :=
  {| ephem_point := None; ciphertext := []; ciphertext_size := 0;
     mactag := []; mactag_size := 0 |}.

(** What [SM2_do_encrypt] returns for [test_msg] under [test_key] when the
    random source hands out k = 3 and the byte below [buf] is 0. *)
Definition test_cv :=
  Eval vm_compute in
    match fst (SM2_do_encrypt 1 (test_env 3 0) EVP_sm3 EVP_sm3 test_msg
                 test_key) with
    | EncReturn (Some cv) => cv
    | _ => empty_cv
    end.

(** [test_cv] with the lowest bit of the first tag byte flipped. *)
Definition tampered_cv : SM2_CIPHERTEXT_VALUE sm2_point :=
  {| ephem_point := ephem_point test_cv;
     ciphertext := ciphertext test_cv;
     ciphertext_size := ciphertext_size test_cv;
     mactag := match mactag test_cv with
               | b :: rest => Z.lxor b 1 :: rest
               | [] => []
               end;
     mactag_size := mactag_size test_cv |}.

(** [test_cv] with the point at infinity in place of C1. *)
Definition degenerate_cv : SM2_CIPHERTEXT_VALUE sm2_point :=
  {| ephem_point := Some None;
     ciphertext := ciphertext test_cv;
     ciphertext_size := ciphertext_size test_cv;
     mactag := mactag test_cv;
     mactag_size := mactag_size test_cv |}.

(** A key object that has its group but no key material yet. *)
Definition group_only_key : EC_KEY sm2_point :=
  {| EC_KEY_get0_group := Some sm2_group;
     EC_KEY_get0_public_key := None;
     EC_KEY_get0_private_key := None |}.

(** A key whose public point is the point at infinity. *)
Definition degenerate_key : EC_KEY sm2_point :=
  {| EC_KEY_get0_group := Some sm2_group;
     EC_KEY_get0_public_key := Some None;
     EC_KEY_get0_private_key := Some test_d |}.

(** The shared point [k*P] = [d*C1] of the run that produced [test_cv],
    and its coordinates x2 || y2. *)
Definition test_S := Eval vm_compute in ec_mul 3 test_P.

Definition test_x2y2 := Eval vm_compute in tl (sm2_point2oct test_S).

(** * Properties *)

Section Properties.

Context {point : Type}.

Implicit Types (s : machine point) (g : EC_GROUP point)
  (key : EC_KEY point) (cv : SM2_CIPHERTEXT_VALUE point)
  (env : environment) (t : list (event point)).

(** ** Buffers *)

Lemma xor_into_length (dst src : list Z) :
  length (xor_into dst src) = length dst.
Proof.
  revert src; induction dst as [|d dst IH]; intros [|x src]; simpl; auto.
Qed.

Lemma xor_into_involutive (mask msg : list Z) :
  length mask = length msg -> xor_into (xor_into mask msg) msg = mask.
Proof.
  revert msg; induction mask as [|d mask IH]; intros [|x msg] H;
    simpl in *; try discriminate; auto.
  rewrite Z.lxor_assoc, Z.lxor_nilpotent, Z.lxor_0_r.
  f_equal; apply IH; congruence.
Qed.

Lemma bytes_eqb_eq (a b : list Z) : bytes_eqb a b = true <-> a = b.
Proof.
  revert b; induction a as [|x a IH]; intros [|y b]; simpl;
    try (split; [discriminate | congruence]); try tauto.
  rewrite andb_true_iff, Z.eqb_eq, IH.
  split; [intros [-> ->]; reflexivity | intros H; inversion H; auto].
Qed.

Lemma memcmp_zero (a b : list Z) (n : Z) :
  memcmp a b n = 0 <-> load a 0 n = load b 0 n.
Proof.
  unfold memcmp.
  destruct (bytes_eqb (load a 0 n) (load b 0 n)) eqn:E.
  - apply bytes_eqb_eq in E; tauto.
  - split; [discriminate |].
    intros H; apply bytes_eqb_eq in H; congruence.
Qed.

Lemma all_zero_empty (buf : list Z) : all_zero buf 0 = true.
Proof. reflexivity. Qed.

(** ** Traces *)

Lemma kdf_calls_app t1 t2 :
  kdf_calls (t1 ++ t2) = kdf_calls t1 ++ kdf_calls t2.
Proof. apply flat_map_app. Qed.

Lemma infinity_tests_app t1 t2 :
  infinity_tests (t1 ++ t2) = infinity_tests t1 ++ infinity_tests t2.
Proof. apply flat_map_app. Qed.

Lemma point_ops_app t1 t2 :
  point_ops (t1 ++ t2) = point_ops t1 ++ point_ops t2.
Proof. apply filter_app. Qed.

Lemma only_draws_app t1 t2 :
  only_draws (t1 ++ t2) = only_draws t1 && only_draws t2.
Proof. apply forallb_app. Qed.

Lemma only_draws_quiet t :
  only_draws t = true ->
  kdf_calls t = [] /\ infinity_tests t = [] /\ point_ops t = [].
Proof.
  induction t as [|e t IH]; simpl; auto.
  destruct e; simpl; try discriminate; auto.
Qed.

Lemma only_queries_quiet t :
  only_queries t = true ->
  kdf_calls t = [] /\ infinity_tests t = [] /\ point_ops t = [].
Proof.
  induction t as [|e t IH]; simpl; auto.
  destruct e; simpl; try discriminate; auto.
Qed.

(** ** Running the model symbolically *)

Ltac innermost x :=
  lazymatch x with
  | context [match ?y with _ => _ end] => innermost y
  | _ => x
  end.

Ltac step :=
  match goal with
  | |- context [match ?x with _ => _ end] =>
      let y := innermost x in destruct y eqn:?
  end;
  cbn [trace draws out outlen fst snd] in *.

Ltac unfold_calls :=
  cbv [bind ret goto_err out_of_fuel log or_err check OPENSSL_assert
       call_EC_GROUP_get_order call_EC_GROUP_get_cofactor
       call_EC_GROUP_get_degree call_EC_POINT_mul
       call_EC_POINT_is_at_infinity call_EC_POINT_point2oct call_kdf
       call_EVP_DigestInit_ex call_EVP_DigestUpdate call_EVP_DigestFinal_ex
       get_out get_outlen set_out set_outlen domain_parameters compute_mac
       start].

(** ** The scalar draw and the retry loop *)

Lemma draw_k_spec fuel env n s (f : flow Z) s' :
  draw_k fuel env n s = (f, s') ->
  out s' = out s /\ outlen s' = outlen s
  /\ (exists t, trace s' = trace s ++ t /\ only_draws t = true)
  /\ (f = Fuel
      \/ exists i, f = Next (BN_rand_range env n i)
                   /\ BN_rand_range env n i <> 0).
Proof.
  revert s; induction fuel as [|fuel IH]; intros s; simpl.
  - unfold out_of_fuel; intros H; inversion H; subst.
    repeat split; auto.
    exists []; rewrite app_nil_r; auto.
  - unfold bind, call_BN_rand_range.
    destruct (BN_is_zero (BN_rand_range env n (draws s))) eqn:Ez.
    + intros H; apply IH in H; simpl in H.
      destruct H as (Ho & Hl & (t & Ht & Hd) & Hf).
      repeat split; auto.
      exists (EvRand (BN_rand_range env n (draws s)) :: t).
      rewrite Ht, <- app_assoc; auto.
    + unfold ret; intros H; inversion H; subst; simpl.
      repeat split; auto.
      * exists [EvRand (BN_rand_range env n (draws s))]; auto.
      * right; exists (draws s); split; auto.
        apply Z.eqb_neq; exact Ez.
Qed.

(** When the loop is left by [break], the mask is what the KDF returned for
    the requested size. *)
Lemma retry_loop_mask fuel env g (pub : point) kdf n h nbytes size s r s' :
  retry_loop fuel env g pub kdf n h nbytes size s = (Next r, s') ->
  exists input, snd r = kdf input size.
Proof.
  revert s; induction fuel as [|fuel IH]; intros s.
  - discriminate.
  - cbn [retry_loop]; unfold_calls.
    repeat (step; try discriminate).
    + apply IH.
    + intros H; inversion H; subst; cbn; eauto.
Qed.

(** With an empty request the scan finds no non-zero byte, so the loop is
    never left by [break]. *)
Lemma retry_loop_empty fuel env g (pub : point) kdf n h nbytes s r s' :
  retry_loop fuel env g pub kdf n h nbytes 0 s <> (Next r, s').
Proof.
  revert s; induction fuel as [|fuel IH]; intros s.
  - discriminate.
  - cbn [retry_loop]; unfold_calls.
    repeat (step; try discriminate).
    apply IH.
Qed.

(** ** SM2_do_encrypt *)

(** C9. A successful call of [SM2_do_encrypt] returns a ciphertext value
    whose [ciphertext_size] is [inlen]; and, the KDF writing as many bytes
    as it is asked for, the masked payload has the length of the message. *)
Theorem encrypt_preserves_length fuel env kdf_md mac_md input key cv :
  fst (SM2_do_encrypt fuel env kdf_md mac_md input key)
  = EncReturn (Some cv) ->
  ciphertext_size cv = Z.of_nat (length input)
  /\ ((forall kdf z n, KDF_get_x9_63 env kdf_md = Some kdf -> 0 <= n ->
         length (kdf z n) = Z.to_nat n) ->
      length (ciphertext cv) = length input).
Proof.
  unfold SM2_do_encrypt, encrypt_body; unfold_calls.
  repeat (step; try discriminate).
  cbn [fst]; intros H; inversion H; subst; clear H; cbn.
  split; [reflexivity |].
  intros Hkdf.
  rewrite xor_into_length.
  match goal with
  | E : retry_loop _ _ _ _ _ _ _ _ _ _ = (Next _, _) |- _ =>
      apply retry_loop_mask in E; destruct E as [zz ->]
  end.
  rewrite (Hkdf _ zz _ eq_refl) by lia.
  apply Nat2Z.id.
Qed.

(** When [h*P] is at infinity the loop body runs at most once: it stops at
    line 100, before the KDF. *)
Lemma retry_loop_degenerate fuel env g (pub : point) kdf n h nbytes size hp
    s f s' :
  EC_POINT_mul g None (Some pub) (Some h) = Some hp ->
  EC_POINT_is_at_infinity g hp = true ->
  retry_loop fuel env g pub kdf n h nbytes size s = (f, s') ->
  exists t, trace s' = trace s ++ t /\ kdf_calls t = []
    /\ ((infinity_tests t = [] /\ (f = GotoErr \/ f = Fuel))
        \/ (infinity_tests t = [hp] /\ f = GotoErr)).
Proof.
  intros Hhp Hinf.
  destruct fuel; cbn [retry_loop]; unfold_calls.
  - intros H; inversion H; subst.
    exists []; rewrite app_nil_r; cbn; intuition auto.
  - repeat (step; try discriminate;
            try (injection Hhp as Hhp; subst; rewrite Hinf in *;
                 discriminate));
      intros H; inversion H; subst; clear H;
      match goal with
      | E : draw_k _ _ _ _ = _ |- _ =>
          apply draw_k_spec in E;
          destruct E as (_ & _ & (t0 & Ht0 & Hd) & [Hf | (i & Hf & _)])
      end;
      try discriminate;
      apply only_draws_quiet in Hd; destruct Hd as (Hk & Hi & _);
      cbn [trace]; try rewrite Ht0; rewrite <- ?app_assoc;
      eexists; (split; [reflexivity |]);
      rewrite ?kdf_calls_app, ?infinity_tests_app, ?Hk, ?Hi; cbn.
    all: split; [reflexivity |].
    all: first [ left; split; [reflexivity | auto; fail]
               | right; split; [congruence | reflexivity] ].
Qed.

(** A non-zero scalar among the next [fuel] values of the random source
    ends the draw. *)
Lemma draw_k_finds fuel env n s :
  (exists j, (j < fuel)%nat /\ BN_rand_range env n (draws s + j) <> 0) ->
  exists k s', draw_k fuel env n s = (Next k, s').
Proof.
  revert s; induction fuel as [|fuel IH]; intros s (j & Hj & Hnz); [lia |].
  cbn [draw_k]; unfold bind, call_BN_rand_range.
  destruct (BN_is_zero (BN_rand_range env n (draws s))) eqn:Ez.
  - apply IH; cbn [draws].
    destruct j as [|j].
    + rewrite Nat.add_0_r in Hnz; apply Z.eqb_eq in Ez; contradiction.
    + exists j; split; [lia |].
      rewrite Nat.add_succ_comm; exact Hnz.
  - unfold ret; eauto.
Qed.

Lemma retry_loop_degenerate_errs fuel env g (pub : point) kdf n h nbytes size
    hp s :
  EC_POINT_mul g None (Some pub) (Some h) = Some hp ->
  EC_POINT_is_at_infinity g hp = true ->
  (exists j, (j < fuel)%nat /\ BN_rand_range env n (draws s + j) <> 0) ->
  fst (retry_loop fuel env g pub kdf n h nbytes size s) = GotoErr.
Proof.
  intros Hhp Hinf Hdraw.
  destruct fuel as [|fuel]; [destruct Hdraw as (j & Hj & _); lia |].
  cbn [retry_loop]; unfold bind at 1.
  destruct (@draw_k_finds (S fuel) env n s Hdraw) as (k & s1 & ->).
  unfold_calls.
  destruct (EC_POINT_mul g (Some k) None None);
    cbn [trace draws out outlen fst snd]; [| reflexivity].
  rewrite Hhp; cbn [trace draws out outlen fst snd].
  rewrite Hinf; reflexivity.
Qed.

(** The run when [h*P] is at infinity: no ciphertext value is returned,
    the KDF is never reached, the infinity test runs at most once, and
    the call returns NULL whenever everything before the loop goes
    through and the random source yields a non-zero scalar. *)
Lemma encrypt_degenerate_key_run fuel env kdf_md mac_md input key
    g pub h hp :
  EC_KEY_get0_group key = Some g ->
  EC_KEY_get0_public_key key = Some pub ->
  EC_GROUP_get_cofactor g = Some h ->
  EC_POINT_mul g None (Some pub) (Some h) = Some hp ->
  EC_POINT_is_at_infinity g hp = true ->
  let r := SM2_do_encrypt fuel env kdf_md mac_md input key in
  (forall cv, fst r <> EncReturn (Some cv))
  /\ kdf_calls (trace (snd r)) = []
  /\ (infinity_tests (trace (snd r)) = []
      \/ (infinity_tests (trace (snd r)) = [hp] /\ fst r = EncReturn None))
  /\ (forall kdf n,
        reaches_loop env kdf_md mac_md key (Z.of_nat (length input))
          g pub kdf n h ->
        (exists j, (j < fuel)%nat /\ BN_rand_range env n j <> 0) ->
        fst r = EncReturn None).
Proof.
  intros Hg Hpub Hh Hhp Hinf r; subst r.
  assert (Hsafe :
    (forall cv, fst (SM2_do_encrypt fuel env kdf_md mac_md input key)
                <> EncReturn (Some cv))
    /\ kdf_calls (trace (snd (SM2_do_encrypt fuel env kdf_md mac_md input
                                key))) = []
    /\ (infinity_tests (trace (snd (SM2_do_encrypt fuel env kdf_md mac_md
                                      input key))) = []
        \/ (infinity_tests (trace (snd (SM2_do_encrypt fuel env kdf_md
                                          mac_md input key))) = [hp]
            /\ fst (SM2_do_encrypt fuel env kdf_md mac_md input key)
               = EncReturn None))).
  { unfold SM2_do_encrypt, encrypt_body.
    rewrite Hg, Hpub.
    unfold_calls.
    rewrite Hh.
    repeat (step; try discriminate);
      try match goal with
          | E : retry_loop _ _ _ _ _ _ _ _ _ _ = _ |- _ =>
              apply retry_loop_degenerate with (hp := hp) in E;
                [| assumption | assumption];
              destruct E as (t & Ht & Hk & [[Hi Hf] | [Hi Hf]]);
              try (destruct Hf; discriminate); try discriminate;
              cbn [trace start] in Ht; cbn [app] in Ht
          end;
      cbn [fst snd trace start app];
      try rewrite Ht;
      unfold kdf_calls, infinity_tests in *; cbn [flat_map app];
      rewrite ?Hk, ?Hi;
      (split; [discriminate |]);
      (split; [reflexivity |]);
      first [ left; reflexivity | right; split; reflexivity ]. }
  destruct Hsafe as (H1 & H2 & H3).
  split; [exact H1 |]; split; [exact H2 |]; split; [exact H3 |].
  intros kdf n
    ((_ & _ & Hkdf & Hcv & Hnew & Hmalloc)
     & (Hn & _ & Hdeg & Hbytes) & Hkmd & Hmmd) Hdraw.
  unfold SM2_do_encrypt, encrypt_body.
  rewrite Hg, Hpub, Hkdf, Hcv, Hnew, Hmalloc.
  unfold_calls.
  rewrite Hn, Hh, Hdeg, Hbytes, Hkmd, Hmmd.
  cbn [trace draws out outlen fst snd andb Z.eqb Pos.eqb].
  match goal with
  | |- context [retry_loop ?f ?e ?g' ?p ?k ?n' ?h' ?b ?sz ?st] =>
      pose proof (@retry_loop_degenerate_errs f e g' p k n' h' b sz hp st
                    Hhp Hinf Hdraw) as Herr;
      destruct (retry_loop f e g' p k n' h' b sz st) as [fl m]
  end.
  cbn in Herr; subst fl; reflexivity.
Qed.

(** With an empty request and no failing step, the loop runs for as long as
    it is given fuel. *)
Lemma retry_loop_empty_spins fuel env g (pub : point) kdf n h nbytes s :
  iteration_ok env g pub n h nbytes ->
  fst (retry_loop fuel env g pub kdf n h nbytes 0 s) = Fuel.
Proof.
  intros [(hp & Hhp & Hinf) Hit].
  revert s; induction fuel as [|fuel IH]; intros s; [reflexivity |].
  cbn [retry_loop]; unfold bind at 1.
  destruct (draw_k (S fuel) env n s) as [f m] eqn:Ed.
  apply draw_k_spec in Ed.
  destruct Ed as (_ & _ & _ & [-> | (i & -> & Hnz)]); [reflexivity |].
  destruct (Hit i Hnz) as [(c1 & Hc1) (kp & enc & Hkp & Henc & Hlen & Hfit)].
  assert (Hguard : (Z.of_nat (length enc) =? 0)
                   || (Z.of_nat (length (stack_buf env))
                       <? Z.of_nat (length enc)) = false).
  { apply orb_false_iff; split; [apply Z.eqb_neq | apply Z.ltb_ge]; lia. }
  unfold_calls.
  rewrite Hc1; cbn [trace draws out outlen fst snd].
  rewrite Hhp; cbn [trace draws out outlen fst snd].
  rewrite Hinf; cbn [trace draws out outlen fst snd negb].
  rewrite Hkp; cbn [trace draws out outlen fst snd].
  rewrite Henc, Hguard; cbn [trace draws out outlen fst snd].
  rewrite Hlen, Z.eqb_refl, all_zero_empty.
  apply IH.
Qed.

(** With an empty request, no failing step and a random source that hands
    out no zero, every unit of fuel is spent on one iteration that calls
    the KDF for 0 bytes and is retried. *)
Lemma retry_loop_empty_iterates fuel env g (pub : point) kdf n h nbytes s :
  iteration_ok env g pub n h nbytes ->
  (forall i, BN_rand_range env n i <> 0) ->
  map snd (kdf_calls
             (trace (snd (retry_loop fuel env g pub kdf n h nbytes 0 s))))
  = map snd (kdf_calls (trace s)) ++ repeat 0 fuel.
Proof.
  intros [(hp & Hhp & Hinf) Hit] Hnz.
  revert s; induction fuel as [|fuel IH]; intros s.
  - cbn [retry_loop repeat]; unfold out_of_fuel; cbn [snd].
    rewrite app_nil_r; reflexivity.
  - destruct (Hit (draws s) (Hnz (draws s)))
      as [(c1 & Hc1) (kp & enc & Hkp & Henc & Hlen & Hfit)].
    assert (Hguard : (Z.of_nat (length enc) =? 0)
                     || (Z.of_nat (length (stack_buf env))
                         <? Z.of_nat (length enc)) = false).
    { apply orb_false_iff; split; [apply Z.eqb_neq | apply Z.ltb_ge]; lia. }
    pose proof (Hnz (draws s)) as Hk; apply Z.eqb_neq in Hk.
    cbn [retry_loop draw_k]; unfold bind at 1.
    unfold bind at 1; unfold call_BN_rand_range at 1.
    unfold BN_is_zero at 1; rewrite Hk.
    unfold_calls.
    rewrite Hc1; cbn [trace draws out outlen fst snd].
    rewrite Hhp; cbn [trace draws out outlen fst snd].
    rewrite Hinf; cbn [trace draws out outlen fst snd negb].
    rewrite Hkp; cbn [trace draws out outlen fst snd].
    rewrite Henc, Hguard; cbn [trace draws out outlen fst snd].
    apply Z.eqb_eq in Hlen; rewrite Hlen.
    cbn [trace draws out outlen fst snd].
    rewrite all_zero_empty.
    rewrite IH; cbn [trace].
    rewrite !kdf_calls_app.
    cbn [kdf_calls flat_map app]; rewrite !app_nil_r.
    rewrite map_app; cbn [map snd repeat].
    rewrite <- app_assoc; reflexivity.
Qed.

(** C6. With a zero-length message the scan at lines 116-123 ends with
    [i == cv->ciphertext_size] in every iteration, so [SM2_do_encrypt]
    never returns a ciphertext value.  When the request for zero bytes on
    line 52 is refused, the call returns NULL at line 55, before the
    loop.  When everything before the loop goes through and no step of an
    iteration fails, the call is still running whatever fuel it is given:
    it does not return; and with a random source that hands out no zero,
    each unit of fuel has gone into one iteration that called the KDF for
    0 bytes and was retried. *)
Theorem encrypt_empty_message_loops env kdf_md mac_md key :
  (forall fuel cv,
     fst (SM2_do_encrypt fuel env kdf_md mac_md [] key)
     <> EncReturn (Some cv))
  /\ (OPENSSL_malloc env 0 = false ->
      forall fuel,
        SM2_do_encrypt fuel env kdf_md mac_md [] key
        = (EncReturn None, start None 0))
  /\ (forall g pub kdf n h,
        reaches_loop env kdf_md mac_md key 0 g pub kdf n h ->
        iteration_ok env g pub n h 32 ->
        forall fuel,
          fst (SM2_do_encrypt fuel env kdf_md mac_md [] key) = EncFuel
          /\ ((forall i, BN_rand_range env n i <> 0) ->
              map snd
                (kdf_calls
                   (trace (snd (SM2_do_encrypt fuel env kdf_md mac_md []
                                  key))))
              = repeat 0 fuel)).
Proof.
  split; [| split].
  - intros fuel cv.
    unfold SM2_do_encrypt, encrypt_body; unfold_calls.
    repeat (step; try discriminate);
      match goal with
      | E : retry_loop _ _ _ _ _ _ _ _ _ _ = (Next _, _) |- _ =>
          apply retry_loop_empty in E; destruct E
      end.
  - intros Hmalloc fuel.
    unfold SM2_do_encrypt, encrypt_body; unfold_calls.
    cbn [length Z.of_nat]; rewrite Hmalloc, andb_false_r.
    destruct (EC_KEY_get0_group key); [| reflexivity].
    destruct (EC_KEY_get0_public_key key); [| reflexivity].
    destruct (KDF_get_x9_63 env kdf_md); [| reflexivity].
    destruct (malloc_cv env); reflexivity.
  - intros g pub kdf n h
      ((Hg & Hpub & Hkdf & Hcv & Hnew & Hmalloc)
       & (Hn & Hh & Hdeg & Hbytes) & Hkmd & Hmmd) Hit fuel.
    unfold SM2_do_encrypt, encrypt_body.
    rewrite Hg, Hpub, Hkdf, Hcv, Hnew.
    cbn [length Z.of_nat]; rewrite Hmalloc.
    unfold_calls.
    rewrite Hn, Hh, Hdeg, Hbytes, Hkmd, Hmmd.
    cbn [trace draws out outlen fst snd andb Z.eqb Pos.eqb].
    match goal with
    | |- context [retry_loop ?f ?e ?g' ?p ?k ?n' ?h' ?b 0 ?st] =>
        pose proof (retry_loop_empty_spins f kdf st Hit) as Hspin;
        pose proof (fun Hnz =>
                      @retry_loop_empty_iterates f e g' p k n' h' b st
                        Hit Hnz) as Hcalls;
        destruct (retry_loop f e g' p k n' h' b 0 st) as [fl m]
    end.
    cbn [fst snd] in Hspin, Hcalls; subst fl.
    split; [reflexivity |].
    intros Hnz; cbn [snd]; rewrite (Hcalls Hnz); reflexivity.
Qed.

(** ** SM2_do_decrypt *)

(** C2 (amended). When the tag recomputed by [SM2_do_decrypt] differs from
    [cv->mactag] in length or in one of the compared bytes, the call
    returns 0 and leaves [*outlen] as it was; the output buffer is not
    cleared: it holds the KDF output xored with the ciphertext, the very
    bytes the tag was recomputed over. *)
Theorem decrypt_mac_mismatch env cv kdf_md mac_md b cap key mac :
  let r := SM2_do_decrypt env cv kdf_md mac_md (Some b) cap key in
  digest_tags (trace (snd r)) = [mac] ->
  mactag_size cv <> EVP_MD_size mac_md
  \/ load (mactag cv) 0 (EVP_MD_size mac_md)
     <> load mac 0 (EVP_MD_size mac_md) ->
  fst r = DecReturn 0
  /\ outlen (snd r) = cap
  /\ exists kdf input x2 y2,
       KDF_get_x9_63 env kdf_md = Some kdf
       /\ kdf_calls (trace (snd r)) = [(input, cap)]
       /\ out (snd r)
          = Some (xor_into (store (kdf input cap) b)
                    (load (ciphertext cv) 0 (ciphertext_size cv)))
       /\ digest_chunks (trace (snd r))
          = [x2;
             load (xor_into (store (kdf input cap) b)
                     (load (ciphertext cv) 0 (ciphertext_size cv))) 0 cap;
             y2].
Proof.
  unfold SM2_do_decrypt, decrypt_body; unfold_calls.
  repeat (step; try discriminate);
    cbn [fst snd trace out outlen digest_tags kdf_calls digest_chunks
         flat_map app];
    intros Htag Hbad; try discriminate;
    injection Htag as ->.
  - split; [reflexivity |]; split; [reflexivity |].
    do 4 eexists; repeat split; reflexivity.
  - exfalso.
    match goal with
    | H : _ || _ = false |- _ =>
        apply orb_false_iff in H; destruct H as [Hsize Hcmp]
    end.
    apply negb_false_iff in Hsize, Hcmp.
    apply Z.eqb_eq in Hsize, Hcmp.
    apply memcmp_zero in Hcmp.
    destruct Hbad; contradiction.
Qed.

(** ** Digest sizes *)

Ltac sizes_32 :=
  match goal with
  | H1 : (EVP_MD_size ?a =? 32) = true, H2 : (EVP_MD_size ?b =? 32) = true,
    H : EVP_MD_size ?a <> 32 \/ EVP_MD_size ?b <> 32 |- _ =>
      apply Z.eqb_eq in H1, H2; destruct H; contradiction
  end.

(** Closes a branch whose recorded test outcomes contradict the conditions
    assumed on the call. *)
Ltac clash :=
  exfalso;
  repeat match goal with
         | H1 : ?x = Some _, H2 : ?x = Some _ |- _ =>
             rewrite H1 in H2; injection H2 as H2; subst
         | H1 : ?x = Some _, H2 : ?x = None |- _ =>
             rewrite H1 in H2; discriminate
         | H1 : ?x = true, H2 : context [?x] |- _ =>
             rewrite H1 in H2
         | H1 : ?x = 32, H2 : context [?x] |- _ =>
             rewrite H1 in H2
         | H : ?x <> ?x |- _ => apply H; reflexivity
         | H : negb (_ <? _) = false |- _ =>
             apply negb_false_iff, Z.ltb_lt in H; lia
         end;
  cbn in *; try discriminate; try contradiction.

Lemma encrypt_wrong_digest_size fuel env kdf_md mac_md input key :
  EVP_MD_size kdf_md <> 32 \/ EVP_MD_size mac_md <> 32 ->
  let e := SM2_do_encrypt fuel env kdf_md mac_md input key in
  (fst e = EncReturn None \/ fst e = EncAbort)
  /\ point_ops (trace (snd e)) = []
  /\ (forall g pub kdf n h,
        encrypt_setup_ok env kdf_md key (Z.of_nat (length input)) g pub kdf ->
        parameters_ok g n h ->
        fst e = EncAbort).
Proof.
  intros Hsize.
  unfold SM2_do_encrypt, encrypt_body; unfold_calls.
  repeat (step; try discriminate; try sizes_32);
    cbn [fst snd trace point_ops filter is_point_op app];
    (split; [auto |]); (split; [reflexivity |]);
    intros g' pub' kdf' n' h' (Hg & Hp & Hk & Hcv & Hnew & Hm)
      (Hn & Hh & Hdeg & Hb);
    try reflexivity; clash.
Qed.

Lemma decrypt_wrong_digest_size env cv kdf_md mac_md b cap key :
  EVP_MD_size kdf_md <> 32 \/ EVP_MD_size mac_md <> 32 ->
  let d := SM2_do_decrypt env cv kdf_md mac_md (Some b) cap key in
  (fst d = DecReturn 0 \/ fst d = DecAbort)
  /\ point_ops (trace (snd d)) = []
  /\ out (snd d) = Some b
  /\ (forall g kdf n h,
        decrypt_setup_ok env cv kdf_md key cap g kdf ->
        parameters_ok g n h ->
        fst d = DecAbort).
Proof.
  intros Hsize.
  unfold SM2_do_decrypt, decrypt_body; unfold_calls.
  repeat (step; try discriminate; try sizes_32);
    cbn [fst snd trace out point_ops filter is_point_op app];
    (split; [auto |]); (split; [reflexivity |]); (split; [reflexivity |]);
    intros g' kdf' n' h' (Hg & Hp & Hk & Hcap & Hnew)
      (Hn & Hh & Hdeg & Hb);
    try reflexivity; clash.
Qed.

(** C5 (amended). When the KDF digest or the MAC digest is not 32 bytes
    wide, [SM2_do_encrypt], and [SM2_do_decrypt] given an output buffer,
    cannot succeed and perform no point operation: the call returns
    failure at an earlier check or is stopped by [OPENSSL_assert], which
    aborts the process; it is stopped there whenever the earlier checks
    pass.  The output buffer is untouched. *)
Theorem digest_size_assertions fuel env kdf_md mac_md input cv b cap key :
  EVP_MD_size kdf_md <> 32 \/ EVP_MD_size mac_md <> 32 ->
  let e := SM2_do_encrypt fuel env kdf_md mac_md input key in
  let d := SM2_do_decrypt env cv kdf_md mac_md (Some b) cap key in
  ((fst e = EncReturn None \/ fst e = EncAbort)
   /\ point_ops (trace (snd e)) = []
   /\ (forall g pub kdf n h,
         encrypt_setup_ok env kdf_md key (Z.of_nat (length input)) g pub kdf ->
         parameters_ok g n h ->
         fst e = EncAbort))
  /\ ((fst d = DecReturn 0 \/ fst d = DecAbort)
      /\ point_ops (trace (snd d)) = []
      /\ out (snd d) = Some b
      /\ (forall g kdf n h,
            decrypt_setup_ok env cv kdf_md key cap g kdf ->
            parameters_ok g n h ->
            fst d = DecAbort)).
Proof.
  intros Hsize; split.
  - apply encrypt_wrong_digest_size; exact Hsize.
  - apply decrypt_wrong_digest_size; exact Hsize.
Qed.

(** ** The capacity query *)

Lemma decrypt_without_buffer env cv kdf_md mac_md len key :
  EC_KEY_get0_group key <> None ->
  EC_KEY_get0_public_key key <> None ->
  KDF_get_x9_63 env kdf_md <> None ->
  SM2_do_decrypt env cv kdf_md mac_md None len key
  = (DecReturn 1, start None (ciphertext_size cv)).
Proof.
  intros Hg Hpub Hkdf.
  unfold SM2_do_decrypt, decrypt_body.
  destruct (EC_KEY_get0_group key); [| contradiction].
  destruct (EC_KEY_get0_public_key key); [| contradiction].
  destruct (KDF_get_x9_63 env kdf_md); [| contradiction].
  reflexivity.
Qed.

(** X8. With a buffer whose declared capacity is below
    [cv->ciphertext_size], zero included, the call returns 0 at line 200
    and touches nothing. *)
Lemma decrypt_insufficient_capacity env cv kdf_md mac_md b cap key :
  cap < ciphertext_size cv ->
  SM2_do_decrypt env cv kdf_md mac_md (Some b) cap key
  = (DecReturn 0, start (Some b) cap).
Proof.
  intros Hcap; apply Z.ltb_lt in Hcap.
  unfold SM2_do_decrypt, decrypt_body; unfold_calls.
  repeat (step; try discriminate); try reflexivity.
  all: rewrite Hcap in *; discriminate.
Qed.

(** A ciphertext value whose [h*C1] is at infinity is rejected by a call
    that is given an output buffer. *)
Lemma decrypt_rejects_degenerate_point env cv kdf_md mac_md b cap key g h hc1 :
  EC_KEY_get0_group key = Some g ->
  EC_GROUP_get_cofactor g = Some h ->
  EC_POINT_mul g None (ephem_point cv) (Some h) = Some hc1 ->
  EC_POINT_is_at_infinity g hc1 = true ->
  fst (SM2_do_decrypt env cv kdf_md mac_md (Some b) cap key) <> DecReturn 1.
Proof.
  intros Hg Hh Hmul Hinf.
  unfold SM2_do_decrypt, decrypt_body.
  rewrite Hg.
  unfold_calls.
  rewrite Hh.
  repeat (step; try discriminate;
          try (injection Hmul as Hmul; subst; rewrite Hinf in *;
               discriminate)).
Qed.

(** C8. Called without an output buffer, with a key that carries a group
    and a public point and a digest for which a KDF exists,
    [SM2_do_decrypt] returns 1 with [*outlen] set to
    [cv->ciphertext_size], whatever [*outlen] was; there is no buffer to
    write to and no collaborator is called. *)
Theorem decrypt_capacity_query env cv kdf_md mac_md len key :
  EC_KEY_get0_group key <> None ->
  EC_KEY_get0_public_key key <> None ->
  KDF_get_x9_63 env kdf_md <> None ->
  let r := SM2_do_decrypt env cv kdf_md mac_md None len key in
  fst r = DecReturn 1
  /\ outlen (snd r) = ciphertext_size cv
  /\ out (snd r) = None
  /\ trace (snd r) = [].
Proof.
  intros Hg Hpub Hkdf r; subst r.
  rewrite decrypt_without_buffer by assumption.
  repeat split.
Qed.

(** C10 (amended). In capacity-query mode [SM2_do_decrypt] returns success
    once its three entry checks pass (the key carries a group, the public
    point tested at line 188 is present, a KDF exists for the KDF digest).
    Nothing else is looked at: no parameter is derived and no point
    operation runs, so the query succeeds also when the same call with an
    output buffer cannot, because a digest is not 32 bytes wide or because
    [h * cv->ephem_point] is at infinity. *)
Theorem decrypt_query_skips_validation env cv kdf_md mac_md len key :
  EC_KEY_get0_group key <> None ->
  EC_KEY_get0_public_key key <> None ->
  KDF_get_x9_63 env kdf_md <> None ->
  let q := SM2_do_decrypt env cv kdf_md mac_md None len key in
  fst q = DecReturn 1
  /\ trace (snd q) = []
  /\ forall b cap,
       let d := SM2_do_decrypt env cv kdf_md mac_md (Some b) cap key in
       (EVP_MD_size kdf_md <> 32 \/ EVP_MD_size mac_md <> 32 ->
        fst d <> DecReturn 1)
       /\ (forall g h hc1,
             EC_KEY_get0_group key = Some g ->
             EC_GROUP_get_cofactor g = Some h ->
             EC_POINT_mul g None (ephem_point cv) (Some h) = Some hc1 ->
             EC_POINT_is_at_infinity g hc1 = true ->
             fst d <> DecReturn 1).
Proof.
  intros Hg Hpub Hkdf q; subst q.
  rewrite decrypt_without_buffer by assumption.
  split; [reflexivity |]; split; [reflexivity |].
  intros b cap d; subst d; split.
  - intros Hsize.
    destruct (@decrypt_wrong_digest_size env cv kdf_md mac_md b cap key Hsize)
      as ([H | H] & _); rewrite H; discriminate.
  - intros g h hc1; apply decrypt_rejects_degenerate_point.
Qed.

(** ** What the two KDF calls are given *)

(** When [buf] holds an uncompressed encoding [0x04 || x2 || y2] of [len]
    bytes, [kdf(buf - 1, len - 1, ...)] is given the byte below [buf], the
    byte 0x04, and [x2 || y2] without its last two bytes. *)
Lemma call_kdf_input env kdf (x2y2 rest : list Z) size s :
  (2 <= length x2y2)%nat ->
  let r := call_kdf env kdf (4 :: x2y2 ++ rest)
             (Z.of_nat (S (length x2y2))) size s in
  trace (snd r)
  = trace s
    ++ [EvKDF (stack_below_buf env :: 4
               :: firstn (length x2y2 - 2) x2y2) size].
Proof.
  intros Hlen; unfold call_kdf; unfold_calls; cbn [snd trace].
  do 2 f_equal; f_equal.
  unfold load; cbn [Z.to_nat skipn].
  replace (Z.to_nat (Z.of_nat (S (length x2y2)) - 1))
    with (S (S (length x2y2 - 2))) by lia.
  cbn [firstn]; do 2 f_equal.
  rewrite firstn_app.
  replace (length x2y2 - 2 - length x2y2)%nat with 0%nat by lia.
  cbn [firstn]; apply app_nil_r.
Qed.

(** Whatever [SM2_do_decrypt] asks of the KDF, it asks for [*outlen]
    bytes, the capacity the caller declared. *)
Lemma decrypt_kdf_request env cv kdf_md mac_md b cap key input n :
  In (input, n)
     (kdf_calls
        (trace (snd (SM2_do_decrypt env cv kdf_md mac_md (Some b) cap key))))
  -> n = cap.
Proof.
  unfold SM2_do_decrypt, decrypt_body; unfold_calls.
  repeat (step; try discriminate);
    cbn [fst snd trace kdf_calls flat_map app In];
    intros H; repeat (destruct H as [H | H]); try contradiction;
    congruence.
Qed.

(** ** What does hold of the round trip *)

Lemma load_all (l : list Z) : load l 0 (Z.of_nat (length l)) = l.
Proof.
  unfold load; rewrite Nat2Z.id; cbn [Z.to_nat skipn]; apply firstn_all.
Qed.

Lemma load_prefix (l rest : list Z) :
  load (l ++ rest) 0 (Z.of_nat (length l)) = l.
Proof.
  unfold load; rewrite Nat2Z.id; cbn [Z.to_nat skipn].
  rewrite firstn_app, firstn_all, Nat.sub_diag; cbn [firstn].
  apply app_nil_r.
Qed.

Lemma xor_into_unmask (t input rest : list Z) :
  length t = length input ->
  xor_into (t ++ rest) (xor_into t input) = input ++ rest.
Proof.
  revert input; induction t as [|d t IH]; intros [|x input] H;
    simpl in *; try discriminate.
  - destruct rest; reflexivity.
  - rewrite <- Z.lxor_assoc, Z.lxor_nilpotent, Z.lxor_0_l.
    f_equal; apply IH; congruence.
Qed.

(** The facts recorded by an iteration that leaves the loop by [break]. *)
Lemma retry_loop_break fuel env g (pub : point) kdf n h nbytes size s r s' :
  retry_loop fuel env g pub kdf n h nbytes size s = (Next r, s') ->
  exists i c1 kp enc,
    BN_rand_range env n i <> 0
    /\ EC_POINT_mul g (Some (BN_rand_range env n i)) None None = Some c1
    /\ EC_POINT_mul g None (Some pub) (Some (BN_rand_range env n i)) = Some kp
    /\ EC_POINT_point2oct g kp = Some enc
    /\ (Z.of_nat (length enc) =? 0)
       || (Z.of_nat (length (stack_buf env)) <? Z.of_nat (length enc))
       = false
    /\ r = (c1, store enc (stack_buf env),
            kdf (load (stack_below_buf env :: store enc (stack_buf env)) 0
                   (Z.of_nat (length enc) - 1)) size).
Proof.
  revert s; induction fuel as [|fuel IH]; intros s.
  - discriminate.
  - cbn [retry_loop]; unfold_calls.
    repeat (step; try discriminate).
    + apply IH.
    + intros H; inversion H; subst; clear H.
      match goal with
      | E : draw_k _ _ _ _ = _ |- _ =>
          apply draw_k_spec in E;
          destruct E as (_ & _ & _ & [Hf | (i & Hf & Hnz)]);
          [discriminate | injection Hf as ->]
      end.
      exists i; eauto 10.
Qed.

(** X1. Decryption gives the message back when the declared capacity is
    exactly the length of the message and the byte below [buf] is the
    same in both calls. *)
Theorem roundtrip_exact_capacity fuel env env' kdf_md mac_md input key cv b
    g d :
  fst (SM2_do_encrypt fuel env kdf_md mac_md input key)
  = EncReturn (Some cv) ->
  EC_KEY_get0_group key = Some g ->
  EC_KEY_get0_private_key key = Some d ->
  same_surroundings env env' kdf_md ->
  kdf_fills env kdf_md ->
  key_agreement env g key d ->
  let r := SM2_do_decrypt env' cv kdf_md mac_md (Some b)
             (Z.of_nat (length input)) key in
  fst r = DecReturn 1
  /\ out (snd r) = Some (input ++ skipn (length input) b)
  /\ outlen (snd r) = Z.of_nat (length input).
Proof.
  intros Henc Hg Hd (Hkdf' & Hbelow & Hbuf & Hnew') Hfill Hagree.
  revert Henc.
  unfold SM2_do_encrypt, encrypt_body; unfold_calls.
  repeat (step; try discriminate).
  cbn [fst]; intros H; inversion H; subst cv; clear H.
  match goal with
  | E : retry_loop _ _ _ _ _ _ _ _ _ _ = _ |- _ =>
      apply retry_loop_break in E;
      destruct E as (i & c1 & kp & enc & Hnz & Hc1 & Hkp & Henc & Hfit & ->)
  end.
  cbn [fst snd] in *.
  injection Hg as Hg; subst e.
  destruct (Hagree z z0 p i c1 Heqo2 Heqo3 Heqo0 Hnz Hc1)
    as ((hc1 & Hhc1 & Hinf1) & Hdc1).
  rewrite Hkp in Hdc1.
  set (mask := k (load (stack_below_buf env :: store enc (stack_buf env)) 0
                    (Z.of_nat (length enc) - 1))
                 (Z.of_nat (length input))) in *.
  assert (Hmask : length mask = length input).
  { unfold mask; rewrite (Hfill k _ _ Heqo1) by lia; apply Nat2Z.id. }
  match goal with
  | |- context [SM2_do_decrypt ?a ?c ?k1 ?k2 ?o ?n ?ky] =>
      remember (SM2_do_decrypt a c k1 k2 o n ky) as R eqn:HR
  end.
  revert HR.
  unfold SM2_do_decrypt, decrypt_body.
  rewrite Heqo, Heqo0, Hkdf'.
  unfold_calls.
  cbn [ephem_point ciphertext ciphertext_size mactag mactag_size
       trace draws out outlen fst snd].
  rewrite Z.ltb_irrefl, Hnew'.
  cbn [negb trace draws out outlen fst snd].
  rewrite Heqo2, Heqo3, Heqb3, Heqb4, Heqb5, Heqb6.
  cbn [trace draws out outlen fst snd].
  rewrite Hhc1; cbn [trace draws out outlen fst snd].
  rewrite Hinf1; cbn [negb trace draws out outlen fst snd].
  rewrite Hd, Hdc1; cbn [trace draws out outlen fst snd].
  rewrite Henc, Hbuf, Hbelow, Hfit; cbn [trace draws out outlen fst snd].
  fold mask.
  assert (Hcand :
    xor_into (store mask b)
      (load (xor_into mask input) 0 (Z.of_nat (length input)))
    = input ++ skipn (length input) b).
  { rewrite <- Hmask at 1.
    rewrite <- (xor_into_length mask input) at 1.
    rewrite load_all.
    unfold store; rewrite Hmask.
    apply xor_into_unmask; exact Hmask. }
  rewrite Hcand, load_prefix.
  rewrite Heqo4; cbn [trace draws out outlen fst snd].
  rewrite Heqo5; cbn [trace draws out outlen fst snd].
  rewrite Heqo6; cbn [trace draws out outlen fst snd].
  rewrite Heqo7; cbn [trace draws out outlen fst snd].
  rewrite Heqo8; cbn [trace draws out outlen fst snd].
  assert (Hcmp : memcmp l l (EVP_MD_size mac_md) = 0)
    by (apply memcmp_zero; reflexivity).
  rewrite Z.eqb_refl, Hcmp.
  cbn [negb orb Z.eqb].
  intros ->; cbn [fst snd out outlen].
  repeat split.
Qed.

(** ** More on the retry loop *)

Lemma digest_chunks_app t1 t2 :
  digest_chunks (t1 ++ t2) = digest_chunks t1 ++ digest_chunks t2.
Proof. apply flat_map_app. Qed.

Lemma digest_tags_app t1 t2 :
  digest_tags (t1 ++ t2) = digest_tags t1 ++ digest_tags t2.
Proof. apply flat_map_app. Qed.

Lemma only_draws_no_digest t :
  only_draws t = true -> digest_chunks t = [] /\ digest_tags t = [].
Proof.
  induction t as [|e t IH]; simpl; auto.
  destruct e; simpl; try discriminate; auto.
Qed.

(** A run of the loop that ends by [break] calls no digest; it calls the
    KDF once per iteration, and every output but the last was all zero. *)
Lemma retry_loop_calls fuel env g (pub : point) kdf n h nbytes size s r s' :
  retry_loop fuel env g pub kdf n h nbytes size s = (Next r, s') ->
  digest_chunks (trace s') = digest_chunks (trace s)
  /\ digest_tags (trace s') = digest_tags (trace s)
  /\ exists zs z,
       kdf_calls (trace s') = kdf_calls (trace s) ++ requests size (zs ++ [z])
       /\ Forall (fun i => all_zero (kdf i size) size = true) zs
       /\ all_zero (kdf z size) size = false
       /\ snd r = kdf z size.
Proof.
  revert s; induction fuel as [|fuel IH]; intros s.
  - discriminate.
  - cbn [retry_loop]; unfold_calls.
    repeat (step; try discriminate);
      match goal with
      | E : draw_k _ _ _ _ = _ |- _ =>
          apply draw_k_spec in E;
          destruct E as (_ & _ & (t0 & Ht0 & Hd) & _);
          pose proof (only_draws_no_digest _ Hd) as (Hc & Hg);
          apply only_draws_quiet in Hd; destruct Hd as (Hk & _ & _)
      end.
    + intros H; apply IH in H; cbn [trace] in H.
      destruct H as (H1 & H2 & zs & z & H3 & H4 & H5 & H6).
      rewrite Ht0 in H1, H2, H3.
      rewrite !digest_chunks_app, Hc in H1.
      rewrite !digest_tags_app, Hg in H2.
      rewrite !kdf_calls_app, Hk in H3.
      cbn [digest_chunks digest_tags kdf_calls flat_map app] in H1, H2, H3.
      rewrite ?app_nil_r in H1; rewrite ?app_nil_r in H2;
        rewrite ?app_nil_r in H3.
      split; [exact H1 |]; split; [exact H2 |].
      match type of H3 with
      | _ = (_ ++ [(?i, _)]) ++ _ => exists (i :: zs), z
      end.
      rewrite <- app_assoc in H3.
      split; [exact H3 |].
      split; [constructor; assumption |].
      split; assumption.
    + intros H; inversion H; subst; clear H; cbn [trace snd].
      rewrite Ht0.
      rewrite !digest_chunks_app, !digest_tags_app, !kdf_calls_app, Hc, Hg, Hk.
      cbn [digest_chunks digest_tags kdf_calls flat_map app].
      rewrite !app_nil_r.
      split; [reflexivity |]; split; [reflexivity |].
      eexists [], _.
      split; [reflexivity |].
      split; [constructor |].
      split; [assumption | reflexivity].
Qed.

(** The checks an iteration has passed when the loop is left by [break]. *)
Lemma retry_loop_checks fuel env g (pub : point) kdf n h nbytes size s r s' :
  retry_loop fuel env g pub kdf n h nbytes size s = (Next r, s') ->
  exists i c1 hp kp enc,
    BN_rand_range env n i <> 0
    /\ EC_POINT_mul g (Some (BN_rand_range env n i)) None None = Some c1
    /\ EC_POINT_mul g None (Some pub) (Some h) = Some hp
    /\ EC_POINT_is_at_infinity g hp = false
    /\ EC_POINT_mul g None (Some pub) (Some (BN_rand_range env n i)) = Some kp
    /\ EC_POINT_point2oct g kp = Some enc
    /\ Z.of_nat (length enc) = nbytes * 2 + 1
    /\ (length enc <= length (stack_buf env))%nat
    /\ fst r = (c1, store enc (stack_buf env)).
Proof.
  revert s; induction fuel as [|fuel IH]; intros s.
  - discriminate.
  - cbn [retry_loop]; unfold_calls.
    repeat (step; try discriminate).
    + apply IH.
    + intros H; inversion H; subst; clear H.
      match goal with
      | E : draw_k _ _ _ _ = _ |- _ =>
          apply draw_k_spec in E;
          destruct E as (_ & _ & _ & [Hf | (i & Hf & Hnz)]);
          [discriminate | injection Hf as ->]
      end.
      match goal with
      | H : _ || _ = false |- _ =>
          apply orb_false_iff in H; destruct H as [_ Hfit];
          apply Z.ltb_ge in Hfit
      end.
      match goal with
      | H : negb _ = true |- _ => apply negb_true_iff in H
      end.
      match goal with
      | H : (_ =? _) = true |- _ => apply Z.eqb_eq in H
      end.
      exists i; do 4 eexists.
      repeat match goal with |- _ /\ _ => split end; eauto; lia.
Qed.

(** The state in which the loop is entered: the three parameter queries
    have been made. *)
Lemma encrypt_success_inv fuel env kdf_md mac_md input key cv :
  fst (SM2_do_encrypt fuel env kdf_md mac_md input key)
  = EncReturn (Some cv) ->
  exists g pub kdf n h r m tag,
    reaches_loop env kdf_md mac_md key (Z.of_nat (length input))
      g pub kdf n h
    /\ retry_loop fuel env g pub kdf n h 32 (Z.of_nat (length input))
         {| trace := [EvGetOrder; EvGetCofactor; EvGetDegree];
            draws := 0; out := None; outlen := 0 |}
       = (Next r, m)
    /\ trace (snd (SM2_do_encrypt fuel env kdf_md mac_md input key))
       = trace m
         ++ [EvDigestInit;
             EvDigestUpdate (load (snd (fst r)) 1 32);
             EvDigestUpdate input;
             EvDigestUpdate (load (snd (fst r)) (1 + 32) 32);
             EvDigestFinal (Some tag)]
    /\ cv = {| ephem_point := Some (fst (fst r));
               ciphertext := xor_into (snd r) input;
               ciphertext_size := Z.of_nat (length input);
               mactag := tag;
               mactag_size := 32 |}.
Proof.
  unfold SM2_do_encrypt, encrypt_body; unfold_calls.
  repeat (step; try discriminate).
  cbn [fst snd trace app]; intros H; inversion H; subst cv; clear H.
  repeat match goal with
         | H : (_ =? _) = true |- _ => apply Z.eqb_eq in H
         | H : _ && _ = true |- _ => apply andb_true_iff in H; destruct H
         end.
  match goal with
  | H : Z.quot _ _ = 32 |- _ => rewrite H in *
  end.
  match goal with
  | H : EVP_MD_size mac_md = 32 |- _ => rewrite H
  end.
  do 8 eexists.
  split; [| split; [eassumption | split; [| reflexivity]]].
  - unfold reaches_loop, encrypt_setup_ok, parameters_ok.
    repeat match goal with |- _ /\ _ => split end;
      try eassumption; try reflexivity; congruence.
  - rewrite <- !app_assoc; reflexivity.
Qed.


Lemma lxor_fixed (d x : Z) : Z.lxor d x = x -> d = 0.
Proof.
  intros H.
  assert (E : Z.lxor (Z.lxor d x) x = Z.lxor x x) by (rewrite H; reflexivity).
  rewrite Z.lxor_assoc, Z.lxor_nilpotent, Z.lxor_0_r in E; exact E.
Qed.

Lemma xor_into_fixed (t input : list Z) :
  length t = length input -> xor_into t input = input ->
  all_zero t (Z.of_nat (length input)) = true.
Proof.
  intros Hlen Hfix; unfold all_zero.
  rewrite <- Hlen, load_all.
  revert input Hlen Hfix; induction t as [|d t IH]; intros [|x input] Hlen Hfix;
    simpl in *; try discriminate; [reflexivity |].
  injection Hfix as Hd Ht.
  apply lxor_fixed in Hd; subst d; simpl.
  apply (IH input); congruence.
Qed.

(** X3. A ciphertext value is returned only after every check has passed:
    the message is not empty, the digests and the order are 32 bytes wide,
    [h*P] is not at infinity, and the ephemeral point is [k*G] for a
    non-zero scalar [k] handed out by the random source. *)
Theorem encrypt_returns_checked_value fuel env kdf_md mac_md input key cv :
  fst (SM2_do_encrypt fuel env kdf_md mac_md input key)
  = EncReturn (Some cv) ->
  input <> []
  /\ EVP_MD_size kdf_md = 32 /\ EVP_MD_size mac_md = 32
  /\ mactag_size cv = 32
  /\ exists g pub n h i c1 hp,
       EC_KEY_get0_group key = Some g
       /\ EC_KEY_get0_public_key key = Some pub
       /\ EC_GROUP_get_order g = Some n /\ BN_num_bytes n = 32
       /\ EC_GROUP_get_cofactor g = Some h
       /\ EC_POINT_mul g None (Some pub) (Some h) = Some hp
       /\ EC_POINT_is_at_infinity g hp = false
       /\ BN_rand_range env n i <> 0
       /\ EC_POINT_mul g (Some (BN_rand_range env n i)) None None = Some c1
       /\ ephem_point cv = Some c1.
Proof.
  intros Henc.
  destruct (encrypt_success_inv _ _ _ _ _ _ Henc)
    as (g & pub & kdf & n & h & r & m & tag & Hreach & Hloop & _ & ->).
  destruct Hreach as ((Hg & Hp & _) & (Hn & Hh & _ & Hb) & Hk & Hm).
  split.
  { intros ->; apply retry_loop_empty in Hloop; exact Hloop. }
  split; [exact Hk |]; split; [exact Hm |]; split; [reflexivity |].
  destruct (retry_loop_checks _ _ _ _ _ _ _ _ _ _ Hloop)
    as (i & c1 & hp & kp & enc & Hnz & Hc1 & Hhp & Hinf & _ & _ & _ & _ & Hr).
  exists g, pub, n, h, i, c1, hp.
  repeat match goal with |- _ /\ _ => split end; try assumption.
  cbn [ephem_point]; rewrite Hr; reflexivity.
Qed.


(** X5. The loop is retried as long as the KDF output is all zero: in a
    call that returns a ciphertext value, every KDF output but the last
    was all zero, the last was not, and the masked payload is the message
    xored with that last output. *)
Theorem encrypt_retries_on_zero_mask fuel env kdf_md mac_md input key cv :
  fst (SM2_do_encrypt fuel env kdf_md mac_md input key)
  = EncReturn (Some cv) ->
  let inlen := Z.of_nat (length input) in
  exists kdf zs z,
    KDF_get_x9_63 env kdf_md = Some kdf
    /\ kdf_calls (trace (snd (SM2_do_encrypt fuel env kdf_md mac_md input
                                key)))
       = requests inlen (zs ++ [z])
    /\ Forall (fun i => all_zero (kdf i inlen) inlen = true) zs
    /\ all_zero (kdf z inlen) inlen = false
    /\ ciphertext cv = xor_into (kdf z inlen) input.
Proof.
  intros Henc inlen; subst inlen.
  destruct (encrypt_success_inv _ _ _ _ _ _ Henc)
    as (g & pub & kdf & n & h & r & m & tag & Hreach & Hloop & Htrace & ->).
  destruct Hreach as ((_ & _ & Hkdf & _) & _).
  destruct (retry_loop_calls _ _ _ _ _ _ _ _ _ _ Hloop)
    as (_ & _ & zs & z & Hcalls & Hzs & Hz & Hr).
  exists kdf, zs, z.
  rewrite Htrace, kdf_calls_app, Hcalls, Hr.
  cbn [ciphertext trace kdf_calls flat_map app].
  rewrite app_nil_r.
  repeat match goal with |- _ /\ _ => split end; auto.
Qed.

(** X6. The masked payload of a returned ciphertext value is never the
    message itself (the KDF writing as many bytes as it is asked for). *)
Theorem encrypt_masks_the_message fuel env kdf_md mac_md input key cv :
  fst (SM2_do_encrypt fuel env kdf_md mac_md input key)
  = EncReturn (Some cv) ->
  kdf_fills env kdf_md ->
  ciphertext cv <> input.
Proof.
  intros Henc Hfill.
  destruct (encrypt_success_inv _ _ _ _ _ _ Henc)
    as (g & pub & kdf & n & h & r & m & tag & Hreach & Hloop & _ & ->).
  destruct Hreach as ((_ & _ & Hkdf & _) & _).
  destruct (retry_loop_calls _ _ _ _ _ _ _ _ _ _ Hloop)
    as (_ & _ & zs & z & _ & _ & Hz & Hr).
  cbn [ciphertext]; rewrite Hr; intros Hfix.
  apply xor_into_fixed in Hfix.
  - rewrite Hfix in Hz; discriminate.
  - rewrite (Hfill kdf z _ Hkdf) by lia; apply Nat2Z.id.
Qed.

(** X2. [SM2_do_encrypt] returns a ciphertext value after one draw and one
    iteration when everything before the loop goes through, no step of
    an iteration fails, the first scalar drawn is not zero, the KDF
    output for it is not all zero and the digest does not fail. *)
Theorem encrypt_returns_a_value fuel env kdf_md mac_md input key
    g pub kdf n h :
  let inlen := Z.of_nat (length input) in
  let k := BN_rand_range env n 0 in
  reaches_loop env kdf_md mac_md key inlen g pub kdf n h ->
  iteration_ok env g pub n h 32 ->
  k <> 0 ->
  (forall kp enc,
     EC_POINT_mul g None (Some pub) (Some k) = Some kp ->
     EC_POINT_point2oct g kp = Some enc ->
     all_zero
       (kdf (load (stack_below_buf env :: store enc (stack_buf env)) 0
               (Z.of_nat (length enc) - 1)) inlen) inlen = false) ->
  digest_never_fails mac_md ->
  (0 < fuel)%nat ->
  let r := SM2_do_encrypt fuel env kdf_md mac_md input key in
  exists cv,
    fst r = EncReturn (Some cv)
    /\ draws (snd r) = 1%nat
    /\ ephem_point cv = EC_POINT_mul g (Some k) None None
    /\ ciphertext_size cv = inlen.
Proof.
  intros inlen k
    ((Hg & Hpub & Hkdf & Hcv & Hnew & Hmalloc)
     & (Hn & Hh & Hdeg & Hbytes) & Hkmd & Hmmd)
    [(hp & Hhp & Hinf) Hit] Hnz Hmask (Hinit & Hupd & Hfin) Hfuel r.
  subst r inlen k.
  destruct fuel as [|fuel]; [lia |].
  destruct (Hit 0%nat Hnz) as [(c1 & Hc1) (kp & enc & Hkp & Henc & Hlen & Hfit)].
  specialize (Hmask kp enc Hkp Henc).
  assert (Hguard : (Z.of_nat (length enc) =? 0)
                   || (Z.of_nat (length (stack_buf env))
                       <? Z.of_nat (length enc)) = false).
  { apply orb_false_iff; split; [apply Z.eqb_neq | apply Z.ltb_ge]; lia. }
  apply Z.eqb_neq in Hnz.
  remember (SM2_do_encrypt (S fuel) env kdf_md mac_md input key) as R eqn:HR.
  revert HR.
  unfold SM2_do_encrypt, encrypt_body.
  rewrite Hg, Hpub, Hkdf, Hcv, Hnew, Hmalloc.
  unfold_calls.
  rewrite Hn, Hh, Hdeg, Hbytes, Hkmd, Hmmd.
  cbn [trace draws out outlen fst snd andb Z.eqb Pos.eqb].
  cbn [retry_loop draw_k]; unfold bind at 1.
  unfold bind at 1; unfold call_BN_rand_range at 1.
  cbn [trace draws out outlen fst snd].
  unfold BN_is_zero at 1; rewrite Hnz.
  unfold_calls.
  rewrite Hc1; cbn [trace draws out outlen fst snd].
  rewrite Hhp; cbn [trace draws out outlen fst snd].
  rewrite Hinf; cbn [trace draws out outlen fst snd negb].
  rewrite Hkp; cbn [trace draws out outlen fst snd].
  rewrite Henc, Hguard; cbn [trace draws out outlen fst snd].
  apply Z.eqb_eq in Hlen; rewrite Hlen.
  cbn [trace draws out outlen fst snd].
  rewrite Hmask; cbn [trace draws out outlen fst snd].
  destruct (EVP_DigestInit_ex mac_md) as [c0|]; [| contradiction].
  cbn [trace draws out outlen fst snd].
  repeat match goal with
         | |- context [EVP_DigestUpdate mac_md ?c ?x] =>
             let E := fresh "E" in
             destruct (EVP_DigestUpdate mac_md c x) eqn:E;
             [| exfalso; exact (Hupd _ _ E)];
             cbn [trace draws out outlen fst snd]
         end.
  match goal with
  | |- context [EVP_DigestFinal_ex mac_md ?c] =>
      let E := fresh "E" in
      destruct (EVP_DigestFinal_ex mac_md c) eqn:E;
      [| exfalso; exact (Hfin _ E)]
  end.
  cbn [trace draws out outlen fst snd].
  intros ->; cbn [trace draws out outlen fst snd].
  eexists; split; [reflexivity |].
  split; [reflexivity |].
  split; reflexivity.
Qed.

(** X7. Without a group, a public point or a KDF, or when one of the
    allocations of lines 47-63 fails, [SM2_do_encrypt] returns NULL
    before it calls any collaborator or draws a scalar. *)
Theorem encrypt_fails_early fuel env kdf_md mac_md input key :
  EC_KEY_get0_group key = None
  \/ EC_KEY_get0_public_key key = None
  \/ KDF_get_x9_63 env kdf_md = None
  \/ malloc_cv env = false
  \/ new_objects env = false
  \/ OPENSSL_malloc env (Z.of_nat (length input)) = false ->
  SM2_do_encrypt fuel env kdf_md mac_md input key
  = (EncReturn None, start None 0).
Proof.
  intros H.
  unfold SM2_do_encrypt, encrypt_body; unfold_calls.
  destruct (EC_KEY_get0_group key); [| reflexivity].
  destruct (EC_KEY_get0_public_key key); [| reflexivity].
  destruct (KDF_get_x9_63 env kdf_md); [| reflexivity].
  destruct (malloc_cv env); [| reflexivity].
  destruct (new_objects env); [| reflexivity].
  destruct (OPENSSL_malloc env (Z.of_nat (length input))); [| reflexivity].
  repeat (destruct H as [H | H]; try discriminate).
Qed.

(** ** More on SM2_do_decrypt *)

Lemma store_length (t b : list Z) :
  (length t <= length b)%nat -> length (store t b) = length b.
Proof.
  intros H; unfold store; rewrite length_app, length_skipn; lia.
Qed.

Lemma store_skipn (t b : list Z) :
  skipn (length t) (store t b) = skipn (length t) b.
Proof.
  unfold store; rewrite skipn_app, skipn_all, Nat.sub_diag; reflexivity.
Qed.

Lemma xor_into_skipn (dst src : list Z) (n : nat) :
  (length src <= n)%nat -> skipn n (xor_into dst src) = skipn n dst.
Proof.
  revert src n; induction dst as [|d dst IH]; intros [|x src] n H;
    try reflexivity.
  destruct n as [|n]; [simpl in H; lia |].
  simpl in *; apply IH; lia.
Qed.

Lemma load_length (l : list Z) (off n : Z) :
  (length (load l off n) <= Z.to_nat n)%nat.
Proof. unfold load; rewrite length_firstn; lia. Qed.


(** X10. A ciphertext value that verifies no longer does once one of the 32
    bytes of its tag is altered: the same call then returns 0. *)
Theorem decrypt_rejects_altered_tag env cv tag' kdf_md mac_md b cap key :
  fst (SM2_do_decrypt env cv kdf_md mac_md (Some b) cap key) = DecReturn 1 ->
  load tag' 0 32 <> load (mactag cv) 0 32 ->
  fst (SM2_do_decrypt env (with_mactag cv tag') kdf_md mac_md (Some b) cap
         key)
  = DecReturn 0.
Proof.
  unfold SM2_do_decrypt, decrypt_body, with_mactag; unfold_calls.
  cbn [ephem_point ciphertext ciphertext_size mactag mactag_size].
  repeat (step; try discriminate);
    cbn [fst snd]; intros Hret Hneq; try discriminate; try reflexivity.
  exfalso.
  repeat match goal with
         | H : (_ =? _) = true |- _ => apply Z.eqb_eq in H
         | H : _ || _ = false |- _ =>
             apply orb_false_iff in H; destruct H
         | H : negb _ = false |- _ => apply negb_false_iff in H
         end.
  match goal with
  | H : EVP_MD_size mac_md = 32 |- _ => rewrite H in *
  end.
  repeat match goal with
         | H : memcmp _ _ _ = 0 |- _ => apply memcmp_zero in H
         end.
  apply Hneq; congruence.
Qed.

(** X11. Given a buffer of at least [*outlen] bytes, [SM2_do_decrypt] never
    changes [*outlen], keeps the length of the buffer, and leaves every
    byte past the first [*outlen] as it was, on every path (the KDF
    writing as many bytes as it is asked for). *)
Theorem decrypt_writes_within_capacity env cv kdf_md mac_md b cap key :
  kdf_fills env kdf_md ->
  0 <= cap ->
  (Z.to_nat cap <= length b)%nat ->
  let r := SM2_do_decrypt env cv kdf_md mac_md (Some b) cap key in
  outlen (snd r) = cap
  /\ exists buf,
       out (snd r) = Some buf
       /\ length buf = length b
       /\ skipn (Z.to_nat cap) buf = skipn (Z.to_nat cap) b.
Proof.
  intros Hfill Hcap Hb.
  unfold SM2_do_decrypt, decrypt_body; unfold_calls.
  repeat (step; try discriminate);
    cbn [fst snd out outlen];
    (split; [reflexivity |]);
    eexists; (split; [reflexivity |]);
    try (split; reflexivity);
    match goal with
    | H : KDF_get_x9_63 env kdf_md = Some ?k |- context [?k ?z cap] =>
        pose proof (Hfill k z cap H Hcap) as Hlen
    end;
    match goal with
    | H : negb (cap <? ciphertext_size cv) = true |- _ =>
        apply negb_true_iff, Z.ltb_ge in H
    end;
    pose proof (load_length (ciphertext cv) 0 (ciphertext_size cv));
    (split;
     [ rewrite xor_into_length, store_length by lia; reflexivity
     | rewrite xor_into_skipn by lia;
       rewrite <- Hlen; apply store_skipn ]).
Qed.


(** X13. Without a group, a public point or a KDF, [SM2_do_decrypt] returns
    0 at once, with or without an output buffer: nothing is called,
    nothing is written, and a capacity query leaves [*outlen] unset. *)
Theorem decrypt_fails_early env cv kdf_md mac_md o cap key :
  EC_KEY_get0_group key = None
  \/ EC_KEY_get0_public_key key = None
  \/ KDF_get_x9_63 env kdf_md = None ->
  SM2_do_decrypt env cv kdf_md mac_md o cap key = (DecReturn 0, start o cap).
Proof.
  intros H.
  unfold SM2_do_decrypt, decrypt_body; unfold_calls.
  destruct (EC_KEY_get0_group key); [| reflexivity].
  destruct (EC_KEY_get0_public_key key); [| reflexivity].
  destruct (KDF_get_x9_63 env kdf_md); [| reflexivity].
  repeat (destruct H as [H | H]; try discriminate).
Qed.

(** ** Allocation and release *)

Ltac heap_cases oracle :=
  repeat (cbv [encrypt_heap decrypt_heap encrypt_err decrypt_err
               SM2_CIPEHRTEXT_VALUE_free release_if release allocate
               existsb filter object_eqb negb orb andb fst snd live bad_free
               empty_heap encrypt_locals0 decrypt_locals0
               enc_cv enc_point enc_n enc_h enc_k enc_bn_ctx enc_md_ctx
               dec_point dec_n dec_h dec_bn_ctx dec_md_ctx
               has_ephem_point has_ciphertext];
          match goal with
          | |- context [oracle ?o] => destruct (oracle o) eqn:?
          end);
  cbv [encrypt_heap decrypt_heap encrypt_err decrypt_err
       SM2_CIPEHRTEXT_VALUE_free release_if release allocate
       existsb filter object_eqb negb orb andb fst snd live bad_free
       empty_heap encrypt_locals0 decrypt_locals0
       enc_cv enc_point enc_n enc_h enc_k enc_bn_ctx enc_md_ctx
       dec_point dec_n dec_h dec_bn_ctx dec_md_ctx
       has_ephem_point has_ciphertext].

(** X14. When [SM2_do_decrypt] returns, every object it created has been
    released, once, and nothing that was not allocated has been released:
    whichever constructors fail and whichever path is taken. *)
Theorem decrypt_releases_everything oracle guards query fits :
  decrypt_heap oracle guards query fits = empty_heap.
Proof.
  unfold decrypt_heap.
  destruct guards, query, fits; try reflexivity;
    heap_cases oracle; reflexivity.
Qed.

Lemma encrypt_heap_ext (f f' : object -> bool) guards rest :
  (forall o, f o = f' o) ->
  encrypt_heap f guards rest = encrypt_heap f' guards rest.
Proof.
  intros H; unfold encrypt_heap, allocate.
  rewrite !H; reflexivity.
Qed.

Lemma encrypt_heap_table (b1 b2 b3 b4 b5 b6 b7 b8 b9 guards rest : bool) :
  let r := encrypt_heap (oracle_of b1 b2 b3 b4 b5 b6 b7 b8 b9) guards rest in
  fst r = guards && b1 && b2 && b3 && b4 && b5 && b6 && b7 && b8 && b9 && rest
  /\ bad_free (snd r) = false
  /\ live (snd r)
     = (if guards && b1 && b2 && b3 && b4 then [ObjPoint] else [])
       ++ (if fst r then [ObjCiphertext; ObjEphemPoint; ObjCv] else []).
Proof.
  destruct guards, b1, b2, b3, b4, b5, b6, b7, b8, b9, rest;
    vm_compute; repeat split.
Qed.

(** X15. When [SM2_do_encrypt] returns, nothing has been released that was
    not allocated, and what is still allocated is: the ciphertext value
    with its point and its payload, exactly when the call returns it; and
    the scratch point [point] of line 58, whenever it was created, for no
    path releases it.  A value is returned exactly when the tests pass,
    every constructor succeeds and lines 68-150 reach [ok = 1]. *)
Theorem encrypt_leaks_the_scratch_point oracle guards rest :
  let r := encrypt_heap oracle guards rest in
  let at_58 :=
    guards && oracle ObjCv && oracle ObjEphemPoint && oracle ObjCiphertext in
  fst r
  = at_58 && oracle ObjPoint && oracle ObjN && oracle ObjH && oracle ObjK
    && oracle ObjBnCtx && oracle ObjMdCtx && rest
  /\ bad_free (snd r) = false
  /\ live (snd r)
     = (if at_58 && oracle ObjPoint then [ObjPoint] else [])
       ++ (if fst r then [ObjCiphertext; ObjEphemPoint; ObjCv] else []).
Proof.
  rewrite (@encrypt_heap_ext oracle
             (oracle_of (oracle ObjCv) (oracle ObjEphemPoint)
                (oracle ObjCiphertext) (oracle ObjPoint) (oracle ObjN)
                (oracle ObjH) (oracle ObjK) (oracle ObjBnCtx)
                (oracle ObjMdCtx)) guards rest)
    by (intros []; reflexivity).
  apply encrypt_heap_table.
Qed.

Lemma object_eqb_eq (o x : object) : object_eqb o x = true <-> o = x.
Proof. destruct o, x; split; intros H; try reflexivity; discriminate. Qed.

Lemma object_eqb_refl (o : object) : object_eqb o o = true.
Proof. apply object_eqb_eq; reflexivity. Qed.

Lemma filter_keeps (o : object) (others : list object) :
  ~ In o others ->
  filter (fun x => negb (object_eqb o x)) others = others.
Proof.
  induction others as [|x others IH]; intros H; [reflexivity |].
  cbn [filter].
  assert (object_eqb o x = false) as ->.
  { destruct (object_eqb o x) eqn:E; [| reflexivity].
    exfalso; apply H; left; symmetry; apply object_eqb_eq; exact E. }
  cbn [negb]; f_equal; apply IH.
  intros Hin; apply H; right; exact Hin.
Qed.

(** Releasing an allocated object that occurs once removes it and flags
    nothing. *)
Lemma release_present (o : object) (before after : list object) (b : bool) :
  ~ In o before -> ~ In o after ->
  release o {| live := before ++ o :: after; bad_free := b |}
  = {| live := before ++ after; bad_free := b |}.
Proof.
  intros Hb Ha; unfold release; cbn [live bad_free].
  rewrite existsb_app; cbn [existsb].
  rewrite object_eqb_refl, orb_true_l, orb_true_r.
  rewrite filter_app; cbn [filter].
  rewrite object_eqb_refl; cbn [negb].
  rewrite !filter_keeps by assumption; reflexivity.
Qed.

(** X16. [SM2_CIPEHRTEXT_VALUE_free] releases the point and the payload of
    the value when the pointers to them are not NULL, then the value
    itself; it releases nothing else and calls no release on a NULL
    field. *)
Theorem cv_free_releases_the_value (cv : cv_fields) (others : list object) :
  ~ In ObjCv others ->
  ~ In ObjEphemPoint others ->
  ~ In ObjCiphertext others ->
  SM2_CIPEHRTEXT_VALUE_free cv
    {| live := (if has_ciphertext cv then [ObjCiphertext] else [])
               ++ (if has_ephem_point cv then [ObjEphemPoint] else [])
               ++ ObjCv :: others;
       bad_free := false |}
  = {| live := others; bad_free := false |}.
Proof.
  intros H1 H2 H3.
  assert (Hne : forall (o x : object) l, o <> x -> ~ In o l -> ~ In o (x :: l)).
  { intros o x l Hox Hl [E | Hin]; [apply Hox; symmetry; exact E | auto]. }
  assert (Hnil : forall o : object, ~ In o []) by (intros o []).
  unfold SM2_CIPEHRTEXT_VALUE_free, release_if.
  destruct cv as [[|] [|]]; cbn [has_ephem_point has_ciphertext app].
  - rewrite (@release_present ObjEphemPoint [ObjCiphertext] (ObjCv :: others));
      [| apply Hne; [discriminate | apply Hnil]
       | apply Hne; [discriminate | assumption]].
    cbn [app].
    rewrite (@release_present ObjCiphertext [] (ObjCv :: others));
      [| apply Hnil | apply Hne; [discriminate | assumption]].
    cbn [app].
    apply (@release_present ObjCv [] others); [apply Hnil | assumption].
  - rewrite (@release_present ObjEphemPoint [] (ObjCv :: others));
      [| apply Hnil | apply Hne; [discriminate | assumption]].
    cbn [app].
    apply (@release_present ObjCv [] others); [apply Hnil | assumption].
  - rewrite (@release_present ObjCiphertext [] (ObjCv :: others));
      [| apply Hnil | apply Hne; [discriminate | assumption]].
    cbn [app].
    apply (@release_present ObjCv [] others); [apply Hnil | assumption].
  - apply (@release_present ObjCv [] others); [apply Hnil | assumption].
Qed.

(** ** The heap on the paths that return NULL *)

Lemma encrypt_heap_failed oracle guards :
  fst (encrypt_heap oracle guards false) = false
  /\ bad_free (snd (encrypt_heap oracle guards false)) = false
  /\ forall o, In o (live (snd (encrypt_heap oracle guards false))) ->
               o = ObjPoint.
Proof.
  rewrite (@encrypt_heap_ext oracle
             (oracle_of (oracle ObjCv) (oracle ObjEphemPoint)
                (oracle ObjCiphertext) (oracle ObjPoint) (oracle ObjN)
                (oracle ObjH) (oracle ObjK) (oracle ObjBnCtx)
                (oracle ObjMdCtx)) guards false)
    by (intros []; reflexivity).
  pose proof (encrypt_heap_table (oracle ObjCv) (oracle ObjEphemPoint)
                (oracle ObjCiphertext) (oracle ObjPoint) (oracle ObjN)
                (oracle ObjH) (oracle ObjK) (oracle ObjBnCtx)
                (oracle ObjMdCtx) guards false) as Ht.
  cbv zeta in Ht; destruct Ht as (Hf & Hb & Hl).
  rewrite andb_false_r in Hf; rewrite Hf in Hl.
  split; [exact Hf |]; split; [exact Hb |].
  intros o; rewrite Hl.
  match goal with
  | |- context [if ?c then _ else _] => destruct c
  end; cbn [app In]; [intros [E | []]; symmetry; exact E | intros []].
Qed.

Lemma encrypt_heap_all_served oracle :
  (forall o, oracle o = true) ->
  encrypt_heap oracle true false
  = (false, {| live := [ObjPoint]; bad_free := false |}).
Proof.
  intros H.
  rewrite (@encrypt_heap_ext oracle
             (oracle_of true true true true true true true true true)
             true false)
    by (intros o; rewrite H; destruct o; reflexivity).
  reflexivity.
Qed.

(** C7. If the cofactor multiple [h*P] of the public point is at infinity,
    [SM2_do_encrypt] never returns a ciphertext value; the loop is not
    retried (the KDF is never reached and the infinity test runs at most
    once); a call that gets to the test at line 99 returns NULL; a call
    that returns, returns NULL and has released the ciphertext value, its
    point and its payload (of the objects it created, none but the
    scratch point is still allocated); and whenever everything before the
    loop goes through and the random source yields a non-zero scalar, the
    call gets to line 99, returns NULL, and leaves the scratch point as
    the only object still allocated. *)
Theorem encrypt_rejects_degenerate_key fuel env kdf_md mac_md input key
    g pub h hp :
  EC_KEY_get0_group key = Some g ->
  EC_KEY_get0_public_key key = Some pub ->
  EC_GROUP_get_cofactor g = Some h ->
  EC_POINT_mul g None (Some pub) (Some h) = Some hp ->
  EC_POINT_is_at_infinity g hp = true ->
  let r := SM2_do_encrypt fuel env kdf_md mac_md input key in
  let x := encrypt_exit fuel env kdf_md mac_md input key in
  (forall cv, fst r <> EncReturn (Some cv))
  /\ kdf_calls (trace (snd r)) = []
  /\ (infinity_tests (trace (snd r)) = []
      \/ (infinity_tests (trace (snd r)) = [hp] /\ fst r = EncReturn None))
  /\ (forall ptr heap_left,
        x = Some (ptr, heap_left) ->
        ptr = false
        /\ bad_free heap_left = false
        /\ forall o, In o (live heap_left) -> o = ObjPoint)
  /\ (forall kdf n,
        reaches_loop env kdf_md mac_md key (Z.of_nat (length input))
          g pub kdf n h ->
        (exists j, (j < fuel)%nat /\ BN_rand_range env n j <> 0) ->
        fst r = EncReturn None
        /\ x = Some (false, {| live := [ObjPoint]; bad_free := false |})).
Proof.
  intros Hg Hpub Hh Hhp Hinf r x; subst r x.
  pose proof (@encrypt_degenerate_key_run fuel env kdf_md mac_md input key
                g pub h hp Hg Hpub Hh Hhp Hinf) as Hrun.
  cbv zeta in Hrun; destruct Hrun as (H1 & H2 & H3 & H4).
  split; [exact H1 |]; split; [exact H2 |]; split; [exact H3 |].
  split.
  - intros ptr heap_left; unfold encrypt_exit.
    destruct (fst (SM2_do_encrypt fuel env kdf_md mac_md input key))
      as [[cv |] | |] eqn:E.
    + destruct (H1 cv eq_refl).
    + intros Hx; injection Hx as Hx.
      pose proof (encrypt_heap_failed
                    (encrypt_oracle env (Z.of_nat (length input)))
                    (encrypt_guards env kdf_md key)) as Hfail.
      rewrite Hx in Hfail; exact Hfail.
    + discriminate.
    + discriminate.
  - intros kdf n Hreach Hdraw.
    pose proof (H4 kdf n Hreach Hdraw) as Hnull.
    split; [exact Hnull |].
    unfold encrypt_exit; rewrite Hnull.
    destruct Hreach as ((_ & _ & Hkdf & Hcv & Hnew & Hmalloc) & _).
    unfold encrypt_guards; rewrite Hg, Hpub, Hkdf.
    rewrite encrypt_heap_all_served; [reflexivity |].
    intros []; cbn [encrypt_oracle]; assumption.
Qed.

End Properties.

(** * The concrete collaborators *)

(** Splits a conjunction into its parts, and nothing else. *)
Ltac conjs :=
  cbv [reaches_loop encrypt_setup_ok parameters_ok decrypt_setup_ok
       same_surroundings];
  repeat match goal with |- _ /\ _ => split end.

(** The two examples of GM/T 0004: "abc" and sixteen times "abcd". *)
Example sm3_abc :
  be_value (sm3 [97; 98; 99]) 0
  = 0x66c7f0f462eeedd9d1f2d46bdc10e4e24167c4875cf2f7a2297da02b8f4ba8e0.
Proof. vm_compute; reflexivity. Qed.

Example sm3_abcd16 :
  be_value (sm3 (concat (repeat [97; 98; 99; 100] 16))) 0
  = 0xdebe9ff92275b8a138604889c18e5a4d6fdb70e5387e5765293dcba39c0c5732.
Proof. vm_compute; reflexivity. Qed.

Example sm2_points_on_curve :
  on_curve sm2_G = true /\ on_curve test_P = true /\ on_curve test_S = true.
Proof. vm_compute; auto. Qed.

Example sm2_parameters_are_256_bit :
  BN_num_bytes sm2_n = 32 /\ BN_num_bytes sm2_p = 32.
Proof. vm_compute; auto. Qed.

Lemma be_bytes_length (n : nat) (x : Z) : length (be_bytes n x) = n.
Proof.
  revert x; induction n as [|n IH]; intros x; simpl; [reflexivity |].
  rewrite length_app, IH; simpl; lia.
Qed.

Lemma sm3_length (msg : list Z) : length (sm3 msg) = 32%nat.
Proof.
  unfold sm3; rewrite !length_app, !be_bytes_length; reflexivity.
Qed.

Lemma x963_blocks_sm3_length (z : list Z) (counter : Z) (n : nat) :
  length (x963_blocks EVP_sm3 z counter n) = (32 * n)%nat.
Proof.
  revert counter; induction n as [|n IH]; intros counter;
    [reflexivity |].
  cbn [x963_blocks]; rewrite length_app, IH.
  change (EVP_Digest EVP_sm3 (z ++ be_bytes 4 counter))
    with (sm3 ([] ++ z ++ be_bytes 4 counter)).
  rewrite sm3_length; lia.
Qed.

(** The X9.63 KDF over SM3 writes as many bytes as it is asked for. *)
Lemma x963_kdf_sm3_length (z : list Z) (n : Z) :
  0 <= n -> length (x963_kdf EVP_sm3 z n) = Z.to_nat n.
Proof.
  intros Hn; unfold x963_kdf.
  rewrite length_firstn, x963_blocks_sm3_length.
  change (EVP_MD_size EVP_sm3) with 32.
  pose proof (Z.div_mod (n + 32 - 1) 32 ltac:(lia)) as Hd.
  pose proof (Z.mod_pos_bound (n + 32 - 1) 32 ltac:(lia)) as Hm.
  assert (0 <= (n + 32 - 1) / 32) by (apply Z.div_pos; lia).
  lia.
Qed.

Lemma test_env_kdf_length (k below : Z) (kdf : KDF_FUNC) (z : list Z) (n : Z) :
  KDF_get_x9_63 (test_env k below) EVP_sm3 = Some kdf -> 0 <= n ->
  length (kdf z n) = Z.to_nat n.
Proof.
  intros H Hn; injection H as <-; apply x963_kdf_sm3_length; exact Hn.
Qed.

(** [test_cv] is what encryption returns, after a single iteration. *)
Lemma test_cv_encrypted :
  fst (SM2_do_encrypt 1 (test_env 3 0) EVP_sm3 EVP_sm3 test_msg test_key)
  = EncReturn (Some test_cv).
Proof. vm_compute; reflexivity. Qed.

(** * The theorems at concrete inputs *)

Lemma encrypt_preserves_length_witness :
  ciphertext_size test_cv = 19 /\ length (ciphertext test_cv) = 19%nat.
Proof.
  destruct (@encrypt_preserves_length sm2_point 1 (test_env 3 0) EVP_sm3
              EVP_sm3 test_msg test_key test_cv) as [Hsize Hlen].
  - vm_compute; reflexivity.
  - split; [exact Hsize |].
    apply Hlen; intros kdf z n; apply test_env_kdf_length.
Defined.

Lemma decrypt_capacity_query_witness :
  let r := SM2_do_decrypt (test_env 3 0) test_cv EVP_sm3 EVP_sm3 None 0
             test_key in
  fst r = DecReturn 1 /\ outlen (snd r) = 19 /\ out (snd r) = None
  /\ trace (snd r) = [].
Proof.
  apply (@decrypt_capacity_query sm2_point (test_env 3 0) test_cv EVP_sm3
           EVP_sm3 0 test_key); discriminate.
Defined.

Lemma degenerate_key_reaches_loop :
  reaches_loop (test_env 3 0) EVP_sm3 EVP_sm3 degenerate_key 19 sm2_group
    None (x963_kdf EVP_sm3) sm2_n 1.
Proof.
  conjs; reflexivity.
Defined.

Lemma encrypt_rejects_degenerate_key_witness :
  let r := SM2_do_encrypt 1 (test_env 3 0) EVP_sm3 EVP_sm3 test_msg
             degenerate_key in
  fst r = EncReturn None
  /\ kdf_calls (trace (snd r)) = []
  /\ encrypt_exit 1 (test_env 3 0) EVP_sm3 EVP_sm3 test_msg degenerate_key
     = Some (false, {| live := [ObjPoint]; bad_free := false |}).
Proof.
  destruct (@encrypt_rejects_degenerate_key sm2_point 1 (test_env 3 0)
              EVP_sm3 EVP_sm3 test_msg degenerate_key sm2_group None 1 None
              eq_refl eq_refl eq_refl eq_refl eq_refl)
    as (_ & Hkdf & _ & _ & Hnull).
  destruct (Hnull (x963_kdf EVP_sm3) sm2_n degenerate_key_reaches_loop)
    as (Hret & Hheap).
  { exists 0%nat; split; [lia | discriminate]. }
  split; [exact Hret |]; split; [exact Hkdf | exact Hheap].
Defined.

Lemma test_key_reaches_loop :
  reaches_loop (test_env 3 0) EVP_sm3 EVP_sm3 test_key 0 sm2_group test_P
    (x963_kdf EVP_sm3) sm2_n 1.
Proof.
  conjs; reflexivity.
Defined.

Lemma test_key_iteration_ok :
  iteration_ok (test_env 3 0) sm2_group test_P sm2_n 1 32.
Proof.
  split.
  - exists test_P; split; vm_compute; reflexivity.
  - intros i _; cbn [BN_rand_range test_env]; split.
    + eexists; reflexivity.
    + exists test_S, (sm2_point2oct test_S).
      split; [vm_compute; reflexivity |].
      split; [reflexivity |].
      split; [vm_compute; reflexivity |].
      apply Nat.leb_le; vm_compute; reflexivity.
Defined.

(** C6, as stated, fails: the allocator refuses the request for zero bytes
    on line 52 and the call returns NULL at line 55, without entering
    the loop. *)
Lemma empty_message_returns_null :
  OPENSSL_malloc (strict_alloc_env 3 0) 0 = false
  /\ SM2_do_encrypt 1 (strict_alloc_env 3 0) EVP_sm3 EVP_sm3 [] test_key
     = (EncReturn None, start None 0).
Proof. split; reflexivity. Qed.

Lemma encrypt_empty_message_loops_witness :
  (let r := SM2_do_encrypt 1000 (test_env 3 0) EVP_sm3 EVP_sm3 [] test_key in
   fst r = EncFuel
   /\ map snd (kdf_calls (trace (snd r))) = repeat 0 1000)
  /\ SM2_do_encrypt 1000 (strict_alloc_env 3 0) EVP_sm3 EVP_sm3 [] test_key
     = (EncReturn None, start None 0).
Proof.
  destruct (@encrypt_empty_message_loops sm2_point (test_env 3 0) EVP_sm3
              EVP_sm3 test_key) as (_ & _ & Hloop).
  destruct (@encrypt_empty_message_loops sm2_point (strict_alloc_env 3 0)
              EVP_sm3 EVP_sm3 test_key) as (_ & Hnull & _).
  destruct (Hloop sm2_group test_P (x963_kdf EVP_sm3) sm2_n 1
              test_key_reaches_loop test_key_iteration_ok 1000%nat)
    as (Hfuel & Hcalls).
  split; [split; [exact Hfuel |] |].
  - apply Hcalls; intros i; cbn [BN_rand_range test_env]; discriminate.
  - apply Hnull; reflexivity.
Defined.

(** C2, as stated, fails: the tag of [tampered_cv] does not verify, the
    call returns 0, and the caller's buffer holds the plaintext. *)
Lemma mac_mismatch_leaves_plaintext :
  let r := SM2_do_decrypt (test_env 0 0) tampered_cv EVP_sm3 EVP_sm3
             (Some (repeat 0 19)) 19 test_key in
  digest_tags (trace (snd r)) = [mactag test_cv]
  /\ mactag tampered_cv <> mactag test_cv
  /\ fst r = DecReturn 0
  /\ out (snd r) = Some test_msg.
Proof.
  cbv zeta; split; [vm_compute; reflexivity |].
  split; [vm_compute; discriminate |].
  split; vm_compute; reflexivity.
Qed.

Lemma decrypt_mac_mismatch_witness :
  let r := SM2_do_decrypt (test_env 0 0) tampered_cv EVP_sm3 EVP_sm3
             (Some (repeat 0 19)) 19 test_key in
  fst r = DecReturn 0 /\ outlen (snd r) = 19.
Proof.
  destruct (@decrypt_mac_mismatch sm2_point (test_env 0 0) tampered_cv
              EVP_sm3 EVP_sm3 (repeat 0 19) 19 test_key (mactag test_cv))
    as (Hret & Hlen & _).
  - vm_compute; reflexivity.
  - right; vm_compute; discriminate.
  - split; [exact Hret | exact Hlen].
Defined.

(** C5, as stated, fails: with a 20-byte digest the capacity query
    succeeds, and encryption is aborted by the assertion instead of
    returning an error. *)
Lemma digest_size_not_reported :
  EVP_MD_size EVP_sm3_160 = 20
  /\ fst (SM2_do_decrypt (test_env 0 0) test_cv EVP_sm3_160 EVP_sm3_160
            None 0 test_key) = DecReturn 1
  /\ fst (SM2_do_encrypt 1 (test_env 3 0) EVP_sm3_160 EVP_sm3_160 test_msg
            test_key) = EncAbort.
Proof. vm_compute; auto. Qed.

Lemma digest_size_assertions_witness :
  let e := SM2_do_encrypt 1 (test_env 3 0) EVP_sm3_160 EVP_sm3 test_msg
             test_key in
  let d := SM2_do_decrypt (test_env 0 0) test_cv EVP_sm3 EVP_sm3_160
             (Some (repeat 0 19)) 19 test_key in
  (fst e = EncAbort /\ point_ops (trace (snd e)) = [])
  /\ (fst d = DecAbort /\ point_ops (trace (snd d)) = []
      /\ out (snd d) = Some (repeat 0 19)).
Proof.
  destruct (@digest_size_assertions sm2_point 1 (test_env 3 0) EVP_sm3_160
              EVP_sm3 test_msg test_cv (repeat 0 19) 19 test_key)
    as ((_ & He & Habort) & _).
  { left; vm_compute; discriminate. }
  destruct (@digest_size_assertions sm2_point 1 (test_env 0 0) EVP_sm3
              EVP_sm3_160 test_msg test_cv (repeat 0 19) 19 test_key)
    as (_ & (_ & Hd & Hout & Habort')).
  { right; vm_compute; discriminate. }
  split; split.
  - apply (Habort sm2_group test_P (x963_kdf EVP_sm3_160) sm2_n 1);
      conjs; reflexivity.
  - exact He.
  - apply (Habort' sm2_group (x963_kdf EVP_sm3) sm2_n 1);
      conjs; first [reflexivity | discriminate | (vm_compute; discriminate)].
  - split; [exact Hd | exact Hout].
Defined.

(** C10, as stated, fails: the key carries a group and a KDF exists, and
    yet the query is refused, at the test of [pub_key] on line 188. *)
Lemma decrypt_query_tests_public_key :
  EC_KEY_get0_group group_only_key = Some sm2_group
  /\ KDF_get_x9_63 (test_env 0 0) EVP_sm3 = Some (x963_kdf EVP_sm3)
  /\ SM2_do_decrypt (test_env 0 0) test_cv EVP_sm3 EVP_sm3 None 0
       group_only_key
     = (DecReturn 0, start None 0).
Proof. conjs; reflexivity. Qed.

Lemma decrypt_query_skips_validation_witness :
  fst (SM2_do_decrypt (test_env 0 0) degenerate_cv EVP_sm3_160 EVP_sm3_160
         None 0 test_key) = DecReturn 1
  /\ fst (SM2_do_decrypt (test_env 0 0) degenerate_cv EVP_sm3_160
            EVP_sm3_160 (Some (repeat 0 19)) 19 test_key) <> DecReturn 1
  /\ fst (SM2_do_decrypt (test_env 0 0) degenerate_cv EVP_sm3 EVP_sm3
            None 0 test_key) = DecReturn 1
  /\ fst (SM2_do_decrypt (test_env 0 0) degenerate_cv EVP_sm3 EVP_sm3
            (Some (repeat 0 19)) 19 test_key) <> DecReturn 1.
Proof.
  destruct (@decrypt_query_skips_validation sm2_point (test_env 0 0)
              degenerate_cv EVP_sm3_160 EVP_sm3_160 0 test_key)
    as (Hq & _ & Hfull); try discriminate.
  destruct (@decrypt_query_skips_validation sm2_point (test_env 0 0)
              degenerate_cv EVP_sm3 EVP_sm3 0 test_key)
    as (Hq' & _ & Hfull'); try discriminate.
  split; [exact Hq |].
  split.
  { apply (proj1 (Hfull (repeat 0 19) 19)); left; vm_compute; discriminate. }
  split; [exact Hq' |].
  apply (proj2 (Hfull' (repeat 0 19) 19) sm2_group 1 None); reflexivity.
Defined.

(** * The round trip on the concrete collaborators *)

Lemma test_key_agreement :
  key_agreement (test_env 3 0) sm2_group test_key test_d.
Proof.
  intros n h pub i c1 Hn Hh Hp _ Hc1.
  injection Hn as <-; injection Hh as <-; injection Hp as <-.
  cbn [BN_rand_range test_env] in *.
  vm_compute in Hc1; injection Hc1 as <-.
  split; [eexists; split; [reflexivity |] |]; vm_compute; reflexivity.
Defined.

Lemma roundtrip_exact_capacity_witness :
  let r := SM2_do_decrypt (test_env 0 0) test_cv EVP_sm3 EVP_sm3
             (Some (repeat 0 19)) 19 test_key in
  fst r = DecReturn 1 /\ out (snd r) = Some test_msg /\ outlen (snd r) = 19.
Proof.
  apply (@roundtrip_exact_capacity sm2_point 1 (test_env 3 0) (test_env 0 0)
           EVP_sm3 EVP_sm3 test_msg test_key test_cv (repeat 0 19)
           sm2_group test_d).
  - vm_compute; reflexivity.
  - reflexivity.
  - reflexivity.
  - conjs; reflexivity.
  - intros kdf z n; apply test_env_kdf_length.
  - exact test_key_agreement.
Defined.

(** C1. For the key pair [test_key] and the message [test_msg],
    [SM2_do_decrypt] does not give back what [SM2_do_encrypt] produced
    when the output buffer is larger than the message (24 bytes for a
    19-byte message), nor when the byte below [buf] differs between the
    two calls: it returns 0.  With exactly 19 bytes and the same byte
    below [buf] it returns 1. *)
Theorem roundtrip_fails_with_spare_capacity :
  test_P = ec_mul test_d sm2_G
  /\ fst (SM2_do_encrypt 1 (test_env 3 0) EVP_sm3 EVP_sm3 test_msg test_key)
     = EncReturn (Some test_cv)
  /\ fst (SM2_do_decrypt (test_env 0 0) test_cv EVP_sm3 EVP_sm3
            (Some (repeat 0 24)) 24 test_key) = DecReturn 0
  /\ fst (SM2_do_decrypt (test_env 0 1) test_cv EVP_sm3 EVP_sm3
            (Some (repeat 0 19)) 19 test_key) = DecReturn 0
  /\ fst (SM2_do_decrypt (test_env 0 0) test_cv EVP_sm3 EVP_sm3
            (Some (repeat 0 19)) 19 test_key) = DecReturn 1.
Proof. conjs; vm_compute; reflexivity. Qed.

(** C3. In both routines the KDF is not given [x2 || y2]: at the concrete
    call it is given the byte below [buf] (here 0), then 0x04, then the
    first 62 of the 64 bytes of [x2 || y2]. *)
Theorem kdf_input_is_shifted :
  let e := SM2_do_encrypt 1 (test_env 3 0) EVP_sm3 EVP_sm3 test_msg
             test_key in
  let d := SM2_do_decrypt (test_env 0 0) test_cv EVP_sm3 EVP_sm3
             (Some (repeat 0 19)) 19 test_key in
  let input := 0 :: 4 :: firstn 62 test_x2y2 in
  sm2_point2oct test_S = 4 :: test_x2y2
  /\ length test_x2y2 = 64%nat
  /\ kdf_calls (trace (snd e)) = [(input, 19)]
  /\ kdf_calls (trace (snd d)) = [(input, 19)]
  /\ input <> test_x2y2.
Proof.
  cbv zeta; conjs; try (vm_compute; reflexivity).
  vm_compute; discriminate.
Qed.

(** C4. With a 24-byte output buffer and a 19-byte ciphertext,
    [SM2_do_decrypt] asks the KDF for 24 bytes and recomputes the tag over
    24 bytes, not over the 19 bytes of the candidate plaintext; the tag
    does not verify and the call returns 0. *)
Theorem decrypt_mask_length_is_capacity :
  let d := SM2_do_decrypt (test_env 0 0) test_cv EVP_sm3 EVP_sm3
             (Some (repeat 0 24)) 24 test_key in
  ciphertext_size test_cv = 19
  /\ map snd (kdf_calls (trace (snd d))) = [24]
  /\ map (@length Z) (digest_chunks (trace (snd d))) = [32; 24; 32]%nat
  /\ fst d = DecReturn 0.
Proof. cbv zeta; conjs; vm_compute; reflexivity. Qed.

(** * The further properties at concrete inputs *)

Lemma test_cv_decrypted :
  fst (SM2_do_decrypt (test_env 0 0) test_cv EVP_sm3 EVP_sm3
         (Some (repeat 0 19)) 19 test_key) = DecReturn 1.
Proof. vm_compute; reflexivity. Qed.

Lemma test_msg_reaches_loop :
  reaches_loop (test_env 3 0) EVP_sm3 EVP_sm3 test_key
    (Z.of_nat (length test_msg)) sm2_group test_P (x963_kdf EVP_sm3) sm2_n 1.
Proof.
  conjs; reflexivity.
Defined.

Lemma encrypt_returns_a_value_witness :
  let r := SM2_do_encrypt 1 (test_env 3 0) EVP_sm3 EVP_sm3 test_msg
             test_key in
  exists cv,
    fst r = EncReturn (Some cv)
    /\ draws (snd r) = 1%nat
    /\ ephem_point cv = EC_POINT_mul sm2_group (Some 3) None None
    /\ ciphertext_size cv = 19.
Proof.
  refine (@encrypt_returns_a_value sm2_point 1 (test_env 3 0) EVP_sm3
            EVP_sm3 test_msg test_key sm2_group test_P (x963_kdf EVP_sm3)
            sm2_n 1 test_msg_reaches_loop test_key_iteration_ok _ _ _ _).
  - cbn [BN_rand_range test_env]; discriminate.
  - cbn [BN_rand_range test_env]; intros kp enc Hkp Henc.
    vm_compute in Hkp; injection Hkp as <-.
    vm_compute in Henc; injection Henc as <-.
    vm_compute; reflexivity.
  - split; [discriminate | split; intros; discriminate].
  - lia.
Defined.

Lemma encrypt_returns_checked_value_witness :
  test_msg <> [] /\ mactag_size test_cv = 32.
Proof.
  destruct (@encrypt_returns_checked_value sm2_point 1 (test_env 3 0)
              EVP_sm3 EVP_sm3 test_msg test_key test_cv test_cv_encrypted)
    as (Hne & _ & _ & Hsize & _).
  split; [exact Hne | exact Hsize].
Defined.


Lemma encrypt_retries_on_zero_mask_witness :
  exists kdf zs z,
    KDF_get_x9_63 (test_env 3 0) EVP_sm3 = Some kdf
    /\ kdf_calls
         (trace (snd (SM2_do_encrypt 1 (test_env 3 0) EVP_sm3 EVP_sm3
                        test_msg test_key)))
       = requests 19 (zs ++ [z])
    /\ Forall (fun i => all_zero (kdf i 19) 19 = true) zs
    /\ all_zero (kdf z 19) 19 = false
    /\ ciphertext test_cv = xor_into (kdf z 19) test_msg.
Proof.
  exact (@encrypt_retries_on_zero_mask sm2_point 1 (test_env 3 0) EVP_sm3
           EVP_sm3 test_msg test_key test_cv test_cv_encrypted).
Defined.

Lemma encrypt_masks_the_message_witness : ciphertext test_cv <> test_msg.
Proof.
  apply (@encrypt_masks_the_message sm2_point 1 (test_env 3 0) EVP_sm3
           EVP_sm3 test_msg test_key test_cv test_cv_encrypted).
  intros kdf z n; apply test_env_kdf_length.
Defined.

Lemma encrypt_fails_early_witness :
  SM2_do_encrypt 1 (test_env 3 0) EVP_sm3 EVP_sm3 test_msg group_only_key
  = (EncReturn None, start None 0).
Proof.
  apply (@encrypt_fails_early sm2_point 1 (test_env 3 0) EVP_sm3 EVP_sm3
           test_msg group_only_key).
  right; left; reflexivity.
Defined.

Lemma decrypt_insufficient_capacity_witness :
  SM2_do_decrypt (test_env 0 0) test_cv EVP_sm3 EVP_sm3
    (Some (repeat 0 10)) 10 test_key
  = (DecReturn 0, start (Some (repeat 0 10)) 10).
Proof.
  apply (@decrypt_insufficient_capacity sm2_point (test_env 0 0) test_cv
           EVP_sm3 EVP_sm3 (repeat 0 10) 10 test_key).
  reflexivity.
Defined.


Lemma decrypt_rejects_altered_tag_witness :
  fst (SM2_do_decrypt (test_env 0 0)
         (with_mactag test_cv (mactag tampered_cv)) EVP_sm3 EVP_sm3
         (Some (repeat 0 19)) 19 test_key)
  = DecReturn 0.
Proof.
  apply (@decrypt_rejects_altered_tag sm2_point (test_env 0 0) test_cv
           (mactag tampered_cv) EVP_sm3 EVP_sm3 (repeat 0 19) 19 test_key).
  - exact test_cv_decrypted.
  - vm_compute; discriminate.
Defined.

Lemma decrypt_writes_within_capacity_witness :
  let r := SM2_do_decrypt (test_env 0 0) test_cv EVP_sm3 EVP_sm3
             (Some (repeat 7 24)) 19 test_key in
  outlen (snd r) = 19
  /\ exists buf,
       out (snd r) = Some buf
       /\ length buf = length (repeat 7 24)
       /\ skipn (Z.to_nat 19) buf = skipn (Z.to_nat 19) (repeat 7 24).
Proof.
  apply (@decrypt_writes_within_capacity sm2_point (test_env 0 0) test_cv
           EVP_sm3 EVP_sm3 (repeat 7 24) 19 test_key).
  - intros kdf z n; apply test_env_kdf_length.
  - lia.
  - apply Nat.leb_le; reflexivity.
Defined.


Lemma decrypt_fails_early_witness :
  SM2_do_decrypt (test_env 0 0) test_cv EVP_sm3 EVP_sm3
    (Some (repeat 0 19)) 19 group_only_key
  = (DecReturn 0, start (Some (repeat 0 19)) 19).
Proof.
  apply (@decrypt_fails_early sm2_point (test_env 0 0) test_cv EVP_sm3
           EVP_sm3 (Some (repeat 0 19)) 19 group_only_key).
  right; left; reflexivity.
Defined.

Lemma cv_free_releases_the_value_witness :
  SM2_CIPEHRTEXT_VALUE_free
    {| has_ephem_point := true; has_ciphertext := true |}
    {| live := [ObjCiphertext; ObjEphemPoint; ObjCv; ObjPoint];
       bad_free := false |}
  = {| live := [ObjPoint]; bad_free := false |}.
Proof.
  apply (@cv_free_releases_the_value
           {| has_ephem_point := true; has_ciphertext := true |} [ObjPoint]);
    intros [H | []]; discriminate H.
Defined.
